(** * asset-matrix: handler registry, FD budget, chain builder and merge engine

    A shallow embedding of [matrix/file_handler.go] (the [FileHandler] methods
    and the [Manifest] methods that follow them) and of the file of package
    [matrix] that holds the handler registry and the FD bucket, followed by
    the properties of the pipeline-construction specification that they
    decide.

    Conventions of the embedding:
    - a [*FileHandler] is an index ([ptr]) into a store of [FileHandler]
      records; every Go method that mutates its receiver takes the store and
      returns the updated store;
    - a Go [map] is a [gmap]; the order in which [range] visits it, and the
      order [sort.Sort] leaves equal keys in, are not fixed by Go and are
      supplied by a [GoRuntime] instance;
    - a run-time panic and a returned [error] are the [Panicked] and [Failed]
      constructors of [outcome];
    - recursion that Go does not bound takes a [fuel] argument and returns
      [None] when the fuel runs out. *)

From stdpp Require Import base option list gmap strings sorting.
From Stdlib Require Import ZArith Lia.

(** ** Outcomes of a Go call *)

Inductive outcome (A : Type) : Type :=
| Done (a : A)
| Failed (err : string)
| Panicked (what : string).
Arguments Done {A} a.
Arguments Failed {A} err.
Arguments Panicked {A} what.

#[global] Instance outcome_ret : MRet outcome := λ A a, Done a.
#[global] Instance outcome_bind : MBind outcome := λ A B k x,
  match x with
  | Done a => k a
  | Failed e => Failed e
  | Panicked w => Panicked w
  end.

(** ** Handlers *)

Inductive InputMode := InputModeFlow | InputModeFork.
Inductive OutputMode := OutputModeFlow | OutputModeUnite.

Record HandlerOptions := {
  OptInputMode : InputMode;
  OptOutputMode : OutputMode
}.

(** A [*FileHandler]. *)
Abbreviation ptr := nat.

Inductive ConcatenationMode := ConcatenationModePrepend | ConcatenationModeAppend.

(** The values of interface [Handler] that occur in a chain.  [Transformation]
    is a handler registered by set-up code: its name, what its [OutputExt()]
    returns and, when it also implements [FDHandler], what [RequiredFds()]
    returns.  The other three are the pseudo-handlers built by
    [NewDefaultHandler], [NewForkHandler] and [NewConcatenationHandler]; a fork
    step carries the chain of the [FileHandler] it was given. *)
#[warnings="-register-all"]
Inductive Handler :=
| Transformation (name : string) (outputExt : string) (requiredFds : option Z)
| DefaultHandler (ext : string)
| ForkHandler (chain : list Handler) (ext : string)
| ConcatenationHandler (parent child : ptr) (mode : ConcatenationMode) (ext : string).

(** Modelled from the spec: the constructors [NewDefaultHandler],
    [NewForkHandler] and [NewConcatenationHandler] and their [OutputExt]
    methods are not among the sources.  The default pass-through step outputs
    the extension it was built for, a fork step leaves the stream that
    continues unchanged, and a concatenation step carries the shared
    extension. *)
Definition NewDefaultHandler (inExt : string) : Handler := DefaultHandler inExt.
Definition NewForkHandler (chain : list Handler) (ext : string) : Handler :=
  ForkHandler chain ext.
Definition NewConcatenationHandler (parent child : ptr) (mode : ConcatenationMode)
    (ext : string) : Handler :=
  ConcatenationHandler parent child mode ext.

Definition OutputExt (h : Handler) : string :=
  match h with
  | Transformation _ out _ => out
  | DefaultHandler ext => ext
  | ForkHandler _ ext => ext
  | ConcatenationHandler _ _ _ ext => ext
  end.

(** [handler.(FDHandler)] followed by [RequiredFds()]: [None] when the type
    assertion fails. *)
Definition RequiredFds (h : Handler) : option Z :=
  match h with
  | Transformation _ _ fds => fds
  | _ => None
  end.

(** [Options] is a pointer in Go: [None] is [nil]. *)
Record RegisteredHandler := {
  RHandler : Handler;
  ROptions : option HandlerOptions
}.

(** ** Extension registry *)

Module Registry.

(** [map[input ext]map[output ext]{handler, options}] *)
Abbreviation handlers := (gmap string RegisteredHandler).
Abbreviation t := (gmap string (gmap string RegisteredHandler)).

Definition registeredHandlers : t := ∅.

Definition Register (inExt outExt : string) (handler : Handler)
    (options : option HandlerOptions) (reg : t) : t :=
  let inner := match reg !! inExt with
               | None => ∅
               | Some m => m
               end in
  <[inExt := <[outExt := {| RHandler := handler; ROptions := options |}]> inner]> reg.

(** A [nil] map is [None]. *)
Definition FindHandlers (reg : t) (inExt : string) : option handlers :=
  match reg !! inExt with
  | Some hs => Some hs
  | None => reg !! "*"
  end.

(** One call of [Register], as data. *)
Record call := {
  c_in : string;
  c_out : string;
  c_handler : Handler;
  c_options : option HandlerOptions
}.

Definition apply_call (reg : t) (c : call) : t :=
  Register (c_in c) (c_out c) (c_handler c) (c_options c) reg.

(** The registry after the calls of [cs], made in order on the empty one. *)
Definition after (cs : list call) : t := foldl apply_call registeredHandlers cs.

(** What the spec says [FindHandlers] sees for [inExt]: every out-extension
    some call registered for it, each with the entry of the last such call. *)
Definition registered_for (cs : list call) (inExt : string) : handlers :=
  foldl (λ m c, if String.eqb (c_in c) inExt
                then <[c_out c := {| RHandler := c_handler c; ROptions := c_options c |}]> m
                else m) ∅ cs.

Definition has_registration (cs : list call) (inExt : string) : bool :=
  existsb (λ c, String.eqb (c_in c) inExt) cs.

End Registry.

(** ** FD budget *)

Module FD.

(** [chan struct{}] with a buffer: its capacity and the number of elements
    queued, which is the number of permits held. *)
Record chan := { chan_cap : nat; chan_len : nat }.

(** [var fdBucket = make(chan struct{}, 10)] *)
Definition fdBucket : chan := {| chan_cap := 10; chan_len := 0 |}.

(** [make] panics on a negative size. *)
Definition SetFDLimit (limit : Z) : outcome chan :=
  if (limit <? 0)%Z then Panicked "makechan: size out of range"
  else Done {| chan_cap := Z.to_nat limit; chan_len := 0 |}.

(** A send that is ready: there is room in the buffer. *)
Definition try_send (c : chan) : option chan :=
  if (chan_len c <? chan_cap c)%nat
  then Some {| chan_cap := chan_cap c; chan_len := S (chan_len c) |}
  else None.

(** A receive that is ready: an element is queued. *)
Definition try_recv (c : chan) : option chan :=
  match chan_len c with
  | O => None
  | S k => Some {| chan_cap := chan_cap c; chan_len := k |}
  end.

(** The bucket holds at most as many permits as its capacity. *)
Definition within (c : chan) : Prop := chan_len c ≤ chan_cap c.

(** Go's [int] is 64 bits wide on the supported platforms; [n--] wraps. *)
Definition int_wrap (z : Z) : Z := ((z + 2 ^ 63) mod 2 ^ 64 - 2 ^ 63)%Z.

(** The [for { select { ... } }] loop of [shouldOpenFD]; one unit of fuel per
    iteration. *)
Fixpoint shouldOpenFD_loop (fuel : nat) (c : chan) (n : Z) : option (chan * bool) :=
  match fuel with
  | O => None
  | S fuel' =>
    match try_send c with
    | Some c' =>
      let n' := int_wrap (n - 1) in
      if (n' =? 0)%Z then Some (c', true) else shouldOpenFD_loop fuel' c' n'
    | None => Some (c, false)
    end
  end.

(** Every iteration but the last fills one free slot, so one unit of fuel per
    free slot and one more always suffice ([shouldOpenFD_returns]). *)
Definition shouldOpenFD (c : chan) (n : Z) : option (chan * bool) :=
  shouldOpenFD_loop (S (chan_cap c - chan_len c)) c n.

(** [fdBucket <- struct{}{}]: [None] while the send blocks. *)
Definition waitFD (c : chan) : option chan := try_send c.

(** [<-fdBucket]: [None] while the receive blocks. *)
Definition fdClosed (c : chan) : option chan := try_recv c.

(** The operations on the bucket, and a sequential run of them.  An operation
    that blocks or panics does not complete: the run has no result. *)
Inductive op :=
| OpShouldOpenFD (n : Z)
| OpWaitFD
| OpFdClosed
| OpSetFDLimit (limit : Z).

Definition exec (o : op) (c : chan) : option chan :=
  match o with
  | OpShouldOpenFD n => fst <$> shouldOpenFD c n
  | OpWaitFD => waitFD c
  | OpFdClosed => fdClosed c
  | OpSetFDLimit limit =>
    match SetFDLimit limit with
    | Done c' => Some c'
    | _ => None
    end
  end.

Fixpoint run (ops : list op) (c : chan) : option chan :=
  match ops with
  | [] => Some c
  | o :: rest =>
    match exec o c with
    | Some c' => run rest c'
    | None => None
    end
  end.

(** The capacity configured by [ops]: that of the last [SetFDLimit], or the
    one in force before. *)
Fixpoint configured (ops : list op) (cap : nat) : nat :=
  match ops with
  | [] => cap
  | OpSetFDLimit limit :: rest => configured rest (Z.to_nat limit)
  | _ :: rest => configured rest cap
  end.

(** What one stage of [FileHandler.Handle] does to the bucket, with the
    permits it claimed and released. *)
Record usage := { after : chan; claimed : nat; released : nat }.

(** The goroutine of [handlerFn] for [handler], run alone against the bucket.
    [copyFails] says whether buffering the input fails.  The deferred
    [fdClosed] runs when [handler.Handle] returns, whatever its error. *)
Definition handlerFn (handler : Handler) (copyFails : bool) (c : chan) : option usage :=
  match RequiredFds handler with
  | None => Some {| after := c; claimed := 0; released := 0 |}
  | Some nFds =>
    if (0 <? nFds)%Z then
      match shouldOpenFD c nFds with
      | None => None
      | Some (c1, true) =>
        c2 ← fdClosed c1;
        Some {| after := c2; claimed := chan_len c1 - chan_len c; released := 1 |}
      | Some (c1, false) =>
        if copyFails then
          Some {| after := c1; claimed := chan_len c1 - chan_len c; released := 0 |}
        else
          c2 ← waitFD c1;
          c3 ← fdClosed c2;
          Some {| after := c3; claimed := S (chan_len c1 - chan_len c); released := 1 |}
      end
    else
      c1 ← fdClosed c;
      Some {| after := c1; claimed := 0; released := 1 |}
  end.

(** What [FileHandler.Handle] does to the bucket for the source file, run
    alone against it: [if !shouldOpenFD(1) { waitFD() }] before [os.Open],
    and [fdClosed()] at the end of the goroutine that copies the file.
    [openFails] says whether [os.Open] fails; [Handle] then returns at once
    and the goroutine is never started. *)
Definition Handle_source (openFails : bool) (c : chan) : option usage :=
  match shouldOpenFD c 1 with
  | None => None
  | Some (c1, ok) =>
    c2 ← (if ok then Some c1 else waitFD c1);
    if openFails then
      Some {| after := c2; claimed := chan_len c2 - chan_len c; released := 0 |}
    else
      c3 ← fdClosed c2;
      Some {| after := c3; claimed := chan_len c2 - chan_len c; released := 1 |}
  end.

End FD.

(** ** What Go leaves open *)

(** The [range] statements over maps: the loop of [buildHandlerChain] and
    the first and second loop of [ConfigureHandlers]. *)
Inductive range_site := RangeHandlers | RangeFilesBuild | RangeFilesLink.

(** The order in which each [range] statement visits a map, and the order in
    which [sort.Sort] leaves elements with equal keys.  [go_sort key] sorts
    by ascending [key]. *)
Class GoRuntime := {
  go_range : ∀ {V : Type}, range_site → gmap string V → list (string * V);
  go_range_perm : ∀ {V : Type} site (m : gmap string V),
    go_range site m ≡ₚ map_to_list m;
  go_sort : (ptr → Z) → list ptr → list ptr;
  go_sort_perm : ∀ key l, go_sort key l ≡ₚ l;
  go_sort_sorted : ∀ key l, StronglySorted (λ a b, (key a ≤ key b)%Z) (go_sort key l)
}.

Definition key_le (key : ptr → Z) (a b : ptr) : Prop := (key a ≤ key b)%Z.

#[global] Instance key_le_dec key a b : Decision (key_le key a b).
Proof. unfold key_le. apply _. Defined.

#[global] Instance key_le_trans key : Transitive (key_le key).
Proof. intros a b c. unfold key_le. lia. Qed.

#[global] Instance key_le_total key : Total (key_le key).
Proof. intros a b. unfold key_le. lia. Qed.

(** One admissible runtime: maps are visited in [map_to_list] order and
    sorting is a merge sort. *)
Definition stable_runtime : GoRuntime := {|
  go_range := λ V _ m, map_to_list m;
  go_range_perm := λ V _ m, reflexivity (map_to_list m);
  go_sort := λ key l, merge_sort (key_le key) l;
  go_sort_perm := λ key l, merge_sort_Permutation (key_le key) l;
  go_sort_sorted := λ key l, StronglySorted_merge_sort (key_le key) l
|}.

(** ** Chain builder *)

Record FileHandler := {
  HandlerChain : list Handler;
  FileSet : list ptr;
  ParentHandlers : list ptr;
  File : option string
}.

Definition is_flow (m : InputMode) : bool :=
  match m with
  | InputModeFlow => true
  | InputModeFork => false
  end.

Section Builder.
Context `{GoRuntime}.
Variable reg : Registry.t.

(** The [for outExt, rh := range handlers] loop of [buildHandlerChain]:
    [build] is [buildHandlerChain] itself, for the two recursive calls. *)
Fixpoint range_handlers (build : string → list Handler → option (outcome (list Handler)))
    (inExt : string) (entries : list (string * RegisteredHandler)) (canAppendFlow : bool)
    (chain : list Handler) : option (outcome (list Handler)) :=
  match entries with
  | [] => Some (Done chain)
  | (outExt, rh) :: rest =>
    match ROptions rh with
    | None => Some (Panicked "invalid memory address or nil pointer dereference")
    | Some options =>
      if is_flow (OptInputMode options) && canAppendFlow then
        match build outExt (chain ++ [RHandler rh]) with
        | Some (Done chain') => range_handlers build inExt rest false chain'
        | stopped => stopped
        end
      else
        match build inExt [] with
        | Some (Done sub) =>
          range_handlers build inExt rest canAppendFlow (chain ++ [NewForkHandler sub inExt])
        | stopped => stopped
        end
    end
  end.

(** [buildHandlerChain] on a handler whose chain is [chain]; the result is
    the chain it leaves.  The call [NewFileHandler(inExt)] of the fork branch
    is the recursive call on the empty chain.  Ranging over a nil map visits
    nothing. *)
Fixpoint buildHandlerChain (fuel : nat) (inExt : string) (chain : list Handler)
    : option (outcome (list Handler)) :=
  match fuel with
  | O => None
  | S fuel' =>
    let handlers := Registry.FindHandlers reg inExt in
    if bool_decide (handlers = None) && (length chain =? 0)%nat then
      Some (Done (chain ++ [NewDefaultHandler inExt]))
    else
      range_handlers (buildHandlerChain fuel') inExt
        (match handlers with
         | None => []
         | Some m => go_range RangeHandlers m
         end) true chain
  end.

(** [NewFileHandler]: a fresh handler, of which only the chain is set. *)
Definition NewFileHandler (fuel : nat) (inExt : string) : option (outcome FileHandler) :=
  match buildHandlerChain fuel inExt [] with
  | Some (Done chain) =>
    Some (Done {| HandlerChain := chain; FileSet := []; ParentHandlers := []; File := None |})
  | Some (Failed e) => Some (Failed e)
  | Some (Panicked w) => Some (Panicked w)
  | None => None
  end.

End Builder.

(** ** Concatenation merge engine *)

Module Merge.

(** The [FileHandler] objects allocated so far; a [ptr] is an index. *)
Abbreviation store := (list FileHandler).

Definition nil_deref : string := "invalid memory address or nil pointer dereference".

Definition deref (s : store) (p : ptr) : outcome FileHandler :=
  match s !! p with
  | Some fh => Done fh
  | None => Panicked nil_deref
  end.

Definition with_chain (fh : FileHandler) (chain : list Handler) : FileHandler :=
  {| HandlerChain := chain; FileSet := FileSet fh;
     ParentHandlers := ParentHandlers fh; File := File fh |}.

Definition with_fileSet (fh : FileHandler) (fs : list ptr) : FileHandler :=
  {| HandlerChain := HandlerChain fh; FileSet := fs;
     ParentHandlers := ParentHandlers fh; File := File fh |}.

Definition with_parents (fh : FileHandler) (ps : list ptr) : FileHandler :=
  {| HandlerChain := HandlerChain fh; FileSet := FileSet fh;
     ParentHandlers := ps; File := File fh |}.

Definition with_file (fh : FileHandler) (path : string) : FileHandler :=
  {| HandlerChain := HandlerChain fh; FileSet := FileSet fh;
     ParentHandlers := ParentHandlers fh; File := Some path |}.

(** The loop of [addHandlerAfterIndex], from position [i]. *)
Fixpoint insert_after (i : nat) (chain : list Handler) (handler : Handler) (index : nat)
    : list Handler :=
  match chain with
  | [] => []
  | h :: rest =>
    if (i =? index)%nat
    then h :: handler :: insert_after (S i) rest handler index
    else h :: insert_after (S i) rest handler index
  end.

Definition addHandlerAfterIndex (self : ptr) (handler : Handler) (index : nat) (s : store)
    : outcome store :=
  fh ← deref s self;
  Done (<[self := with_chain fh (insert_after 0 (HandlerChain fh) handler index)]> s).

Definition AddParentFileHandler (self fh : ptr) (s : store) : outcome store :=
  x ← deref s self;
  Done (<[self := with_parents x (ParentHandlers x ++ [fh])]> s).

Definition AddFileHandler (self fh : ptr) (s : store) : outcome store :=
  s1 ← (if bool_decide (fh ≠ self) then AddParentFileHandler fh self s else Done s);
  x ← deref s1 self;
  Done (<[self := with_fileSet x (FileSet x ++ [fh])]> s1).

(** The loop of [concatenateAtIndex] that picks the mode. *)
Fixpoint concatenationMode (fileSet : list ptr) (parent child : ptr) : ConcatenationMode :=
  match fileSet with
  | [] => ConcatenationModePrepend
  | fh :: rest =>
    if bool_decide (fh = child) then ConcatenationModePrepend
    else if bool_decide (fh = parent) then ConcatenationModeAppend
    else concatenationMode rest parent child
  end.

Definition index_out_of_range : string := "index out of range".

Definition concatenateAtIndex (parent child : ptr) (handlerIndex : nat) (s : store)
    : outcome store :=
  p ← deref s parent;
  let mode := concatenationMode (FileSet p) parent child in
  match HandlerChain p !! handlerIndex with
  | None => Panicked index_out_of_range
  | Some h =>
    let ext := OutputExt h in
    addHandlerAfterIndex parent (NewConcatenationHandler parent child mode ext) handlerIndex s
  end.

(** The inner loop of [removeIncompatibleHandlers]: [j] runs from [j1 - 1]
    down to 0. *)
Fixpoint scan_b (ai : Handler) (b : list Handler) (j1 : nat) : option nat :=
  match j1 with
  | O => None
  | S j =>
    match b !! j with
    | Some bj => if String.eqb (OutputExt ai) (OutputExt bj) then Some j else scan_b ai b j
    | None => None
    end
  end.

(** The outer loop: [i] runs from [i1 - 1] down to 0; the result is the pair
    [(i, j)] at which the function returns. *)
Fixpoint scan_a (a b : list Handler) (i1 : nat) : option (nat * nat) :=
  match i1 with
  | O => None
  | S i =>
    match a !! i with
    | Some ai =>
      match scan_b ai b (length b) with
      | Some j => Some (i, j)
      | None => scan_a a b i
      end
    | None => None
    end
  end.

Definition incompatible : string := "matrix: FileHandler: incompatible handler chains".

(** [removeIncompatibleHandlers(a, b)].  The slice [a] is a parameter, passed
    by value: the first component is the value the local variable [a] holds
    when the function returns, the second is what the function returns.  The
    error text stops before the two chains that Go prints after it. *)
Definition removeIncompatibleHandlers (a b : list Handler) : list Handler * outcome nat :=
  match scan_a a b (length a) with
  | Some (i, j) => (take i a, Done j)
  | None => (a, Failed incompatible)
  end.

Section Engine.
Context `{GoRuntime}.

Definition chain_len (s : store) (p : ptr) : Z :=
  match s !! p with
  | Some fh => Z.of_nat (length (HandlerChain fh))
  | None => 0%Z
  end.

(** Modelled from the spec: [sort.Sort(byLenHandlerChain(ps))]; the type
    [byLenHandlerChain] is not among the sources, the comment at its use says
    `sort parent handlers by lowest len(fh.HandlerChain)`.  Comparing two or
    more handlers reads the chain of each, which panics on a [nil] one. *)
Definition sort_byLenHandlerChain (s : store) (ps : list ptr) : outcome (list ptr) :=
  if (2 <=? length ps)%nat && negb (forallb (λ p, bool_decide (is_Some (s !! p))) ps)
  then Panicked nil_deref
  else Done (go_sort (chain_len s) ps).

(** The [for _, parent := range fileHandler.ParentHandlers] loop. *)
Fixpoint merge_loop (self : ptr) (parents : list ptr) (s : store) : outcome store :=
  match parents with
  | [] => Done s
  | parent :: rest =>
    c ← deref s self;
    p ← deref s parent;
    match removeIncompatibleHandlers (HandlerChain c) (HandlerChain p) with
    | (_, Done index) =>
      s' ← concatenateAtIndex parent self index s;
      merge_loop self rest s'
    | (_, Failed err) => Failed err
    | (_, Panicked w) => Panicked w
    end
  end.

(** [Done] is the [nil] error. *)
Definition MergeWithParents (self : ptr) (s : store) : outcome store :=
  fh ← deref s self;
  sorted ← sort_byLenHandlerChain s (ParentHandlers fh);
  merge_loop self sorted (<[self := with_parents fh sorted]> s).

End Engine.

End Merge.

(** ** Orchestrator: the [Manifest] methods *)

Module Orchestrator.
Import Merge.

(** Go's type [File], named [SourceFile] here because [File] is the field of
    [FileHandler]: the extension of a source file and, per directive, the
    paths of the files the directive names.  A [*File] is the path the file
    is mapped under. *)
Record SourceFile := {
  Ext : string;
  Directives : list (list string)
}.

(** The part of [Manifest] that handler configuration reads and writes, with
    the store of handlers and the [FileHandler] field of every file. *)
Record Manifest := {
  FilePathMapping : gmap string SourceFile;
  fileHandlers : list ptr;
  FileHandlerOf : gmap string ptr;
  handlers : store
}.

Definition NewManifest (files : gmap string SourceFile) : Manifest :=
  {| FilePathMapping := files; fileHandlers := []; FileHandlerOf := ∅; handlers := [] |}.

Section Configure.
Context `{GoRuntime}.
Variable reg : Registry.t.

(** First loop of [ConfigureHandlers]: a handler per file. *)
Fixpoint build_chains (fuel : nat) (files : list (string * SourceFile)) (m : Manifest)
    : option (outcome Manifest) :=
  match files with
  | [] => Some (Done m)
  | (path, file) :: rest =>
    match NewFileHandler reg fuel (Ext file) with
    | None => None
    | Some (Failed err) => Some (Failed err)
    | Some (Panicked w) => Some (Panicked w)
    | Some (Done fh) =>
      build_chains fuel rest
        {| FilePathMapping := FilePathMapping m;
           fileHandlers := fileHandlers m ++ [length (handlers m)];
           FileHandlerOf := <[path := length (handlers m)]> (FileHandlerOf m);
           handlers := handlers m ++ [with_file fh path] |}
    end
  end.

(** The two inner loops of the second loop: the files named by the
    directives of the file whose handler is [self], in order. *)
Fixpoint add_directive_files (fhOf : gmap string ptr) (self : ptr) (named : list string)
    (selfAdded : bool) (s : store) : outcome (bool * store) :=
  match named with
  | [] => Done (selfAdded, s)
  | f :: rest =>
    match fhOf !! f with
    | None => Panicked nil_deref
    | Some fileHandler =>
      s' ← AddFileHandler self fileHandler s;
      add_directive_files fhOf self rest (selfAdded || bool_decide (fileHandler = self)) s'
    end
  end.

(** Second loop: the parent / child lists. *)
Fixpoint link_files (fhOf : gmap string ptr) (files : list (string * SourceFile)) (s : store)
    : outcome store :=
  match files with
  | [] => Done s
  | (path, file) :: rest =>
    match fhOf !! path with
    | None => Panicked nil_deref
    | Some self =>
      match add_directive_files fhOf self (concat (Directives file)) false s with
      | Done (selfAdded, s1) =>
        s2 ← (if selfAdded then Done s1 else AddFileHandler self self s1);
        link_files fhOf rest s2
      | Failed err => Failed err
      | Panicked w => Panicked w
      end
    end
  end.

Definition parents_len (s : store) (p : ptr) : Z :=
  match s !! p with
  | Some fh => Z.of_nat (length (ParentHandlers fh))
  | None => 0%Z
  end.

(** Modelled from the spec: [sort.Sort(byLenParentHandlersReversed(fhs))];
    the type is not among the sources, the comment at its use says `Sort file
    handlers by len(fh.ParentHandlers) (most to least)`. *)
Definition sort_byLenParentHandlersReversed (s : store) (fhs : list ptr) : list ptr :=
  go_sort (λ p, (- parents_len s p)%Z) fhs.

(** Last loop: insert the concatenation handlers. *)
Fixpoint merge_all (fhs : list ptr) (s : store) : outcome store :=
  match fhs with
  | [] => Done s
  | fh :: rest =>
    s' ← MergeWithParents fh s;
    merge_all rest s'
  end.

Definition ConfigureHandlers (fuel : nat) (m : Manifest) : option (outcome Manifest) :=
  let files := go_range RangeFilesBuild (FilePathMapping m) in
  match build_chains fuel files
          {| FilePathMapping := FilePathMapping m; fileHandlers := [];
             FileHandlerOf := FileHandlerOf m; handlers := handlers m |} with
  | None => None
  | Some (Failed err) => Some (Failed err)
  | Some (Panicked w) => Some (Panicked w)
  | Some (Done m1) =>
    Some (s2 ← link_files (FileHandlerOf m1) (go_range RangeFilesLink (FilePathMapping m1))
                 (handlers m1);
          let sorted := sort_byLenParentHandlersReversed s2 (fileHandlers m1) in
          s3 ← merge_all sorted s2;
          Done {| FilePathMapping := FilePathMapping m1; fileHandlers := sorted;
                  FileHandlerOf := FileHandlerOf m1; handlers := s3 |})
  end.

End Configure.

(** [len(fh.ParentHandlers) > 0] does not hold. *)
Definition is_root (s : store) (fh : ptr) : bool :=
  match s !! fh with
  | Some x => (length (ParentHandlers x) =? 0)%nat
  | None => false
  end.

(** The handlers [WriteOutput] executes and writes, in the order it visits
    them, when no I/O error ends the loop early: it walks [fileHandlers]
    backwards and skips every handler that has a parent. *)
Definition WriteOutput (m : Manifest) : list ptr :=
  filter (λ fh, is_root (handlers m) fh = true) (reverse (fileHandlers m)).

End Orchestrator.

(** ** The name index of the [Manifest] *)

Module Names.
Section Names.

(** A [*File] and a [*Dir] are read through their methods [Path], [Name] and
    [Ext] only. *)
Context {file dir : Type}.
Variables (Path Name Ext : file → string) (DirPath DirName : dir → string).

(** A nil [Files] map is [None]. *)
Record AssetMap := {
  Dir : option dir;
  Files : option (gmap string file)
}.

(** The three maps of the [Manifest].  [NameMapping] never holds a nil
    [*AssetMap]: a missing key stands for it. *)
Record t := {
  DirPathMapping : gmap string dir;
  FilePathMapping : gmap string file;
  NameMapping : gmap string AssetMap
}.

Definition NewManifest : t :=
  {| DirPathMapping := ∅; FilePathMapping := ∅; NameMapping := ∅ |}.

Definition AddDir (d : dir) (m : t) : t :=
  {| DirPathMapping := <[DirPath d := d]> (DirPathMapping m);
     FilePathMapping := FilePathMapping m;
     NameMapping :=
       match NameMapping m !! DirName d with
       | None => <[DirName d := {| Dir := Some d; Files := None |}]> (NameMapping m)
       | Some am => <[DirName d := {| Dir := Some d; Files := Files am |}]> (NameMapping m)
       end |}.

Definition AddFile (f : file) (m : t) : t :=
  let names1 :=
    match NameMapping m !! Name f with
    | None => <[Name f := {| Dir := None; Files := None |}]> (NameMapping m)
    | Some _ => NameMapping m
    end in
  let names2 :=
    match names1 !! Name f with
    | Some {| Dir := d; Files := None |} =>
        <[Name f := {| Dir := d; Files := Some ∅ |}]> names1
    | _ => names1
    end in
  {| DirPathMapping := DirPathMapping m;
     FilePathMapping := <[Path f := f]> (FilePathMapping m);
     NameMapping :=
       match names2 !! Name f with
       | Some {| Dir := d; Files := Some files |} =>
           <[Name f := {| Dir := d; Files := Some (<[Ext f := f]> files) |}]> names2
       | _ => names2
       end |}.

Definition FindDirName (name : string) (m : t) : option dir :=
  match NameMapping m !! name with
  | None => None
  | Some am => Dir am
  end.

(** [range] is the order in which the [range] statement visits the map this
    time; the first file visited is returned. *)
Definition FindFileName (range : gmap string file → list (string * file))
    (name ext : string) (m : t) : option file :=
  match NameMapping m !! name with
  | None => None
  | Some am =>
    match Files am with
    | None => None
    | Some files =>
      if decide (ext ≠ "") then files !! ext
      else match range files with
           | (_, f) :: _ => Some f
           | [] => None
           end
    end
  end.

(** One call of [AddDir] or [AddFile], as data. *)
Inductive call := CallAddDir (d : dir) | CallAddFile (f : file).

Definition apply_call (m : t) (c : call) : t :=
  match c with
  | CallAddDir d => AddDir d m
  | CallAddFile f => AddFile f m
  end.

(** The manifest after the calls of [cs], made in order on a new one. *)
Definition after (cs : list call) : t := foldl apply_call NewManifest cs.

(** The files held under a name. *)
Definition files_of (m : t) (name : string) : gmap string file :=
  match NameMapping m !! name with
  | Some {| Files := Some files |} => files
  | _ => ∅
  end.

End Names.
End Names.

(** ** Concrete registrations, buckets and stores used below *)

Module Examples.
Import Registry Merge Orchestrator.

Definition flow : option HandlerOptions :=
  Some {| OptInputMode := InputModeFlow; OptOutputMode := OutputModeFlow |}.
Definition fork : option HandlerOptions :=
  Some {| OptInputMode := InputModeFork; OptOutputMode := OutputModeFlow |}.

Definition coffee : Handler := Transformation "coffee" "js" None.
Definition gzip : Handler := Transformation "gzip" "gz" None.
Definition minify : Handler := Transformation "minify" "js" (Some 2%Z).

(** [Register("coffee", "js", coffee, flow)] *)
Definition reg_coffee : Registry.t := Register "coffee" "js" coffee flow registeredHandlers.

(** [Register("js", "gz", gzip, fork)]: one fork-mode entry, no cycle. *)
Definition reg_fork : Registry.t := Register "js" "gz" gzip fork registeredHandlers.

Definition a_to_b : Handler := Transformation "a2b" "b" None.
Definition b_to_c : Handler := Transformation "b2c" "c" None.

(** A child (handler 0) with chain [a→b, b→c] that handler 1, with chain
    [a→b], includes after itself. *)
Definition store_long_child : store :=
  [ {| HandlerChain := [a_to_b; b_to_c]; FileSet := [0]; ParentHandlers := [1];
       File := Some "child.a" |};
    {| HandlerChain := [a_to_b]; FileSet := [1; 0]; ParentHandlers := [];
       File := Some "parent.a" |} ].

(** [Register("*", "gz", gzip, fork)]: a wildcard registration. *)
Definition reg_wildcard : Registry.t := Register "*" "gz" gzip fork registeredHandlers.

(** [Register("coffee", "js", coffee, nil)]: no options. *)
Definition reg_no_options : Registry.t :=
  Register "coffee" "js" coffee None registeredHandlers.

(** A child (handler 0) that its parent (handler 1) names twice. *)
Definition store_named_twice : store :=
  [ {| HandlerChain := [a_to_b]; FileSet := [0]; ParentHandlers := [1; 1];
       File := Some "child.a" |};
    {| HandlerChain := [a_to_b]; FileSet := [0; 0; 1]; ParentHandlers := [];
       File := Some "parent.a" |} ].

(** One handler with chain [a→b], not linked yet. *)
Definition store_alone : store :=
  [ {| HandlerChain := [a_to_b]; FileSet := []; ParentHandlers := [];
       File := Some "only.a" |} ].

(** Two handlers, not linked yet. *)
Definition store_unlinked : store :=
  [ {| HandlerChain := [a_to_b]; FileSet := []; ParentHandlers := [];
       File := Some "child.a" |};
    {| HandlerChain := [a_to_b]; FileSet := []; ParentHandlers := [];
       File := Some "parent.a" |} ].

(** Two files: [lib.js] has no directive, [app.js] names [lib.js]. *)
Definition two_files : gmap string SourceFile :=
  <["app.js" := {| Ext := "js"; Directives := [["lib.js"]] |}]>
    (<["lib.js" := {| Ext := "js"; Directives := [] |}]> ∅).

(** A file of the name index, as its path, name and extension. *)
Definition asset : Type := string * string * string.
Definition asset_path (a : asset) : string := a.1.1.
Definition asset_name (a : asset) : string := a.1.2.
Definition asset_ext (a : asset) : string := a.2.

Definition app_js : asset := ("/src/app.js", "app", "js").
Definition app_css : asset := ("/src/app.css", "app", "css").

(** One file, whose directive names a file the manifest does not hold. *)
Definition dangling_files : gmap string SourceFile :=
  <["app.js" := {| Ext := "js"; Directives := [["gone.js"]] |}]> ∅.

(** Two files: [app.js] names [style.css]. *)
Definition mixed_files : gmap string SourceFile :=
  <["app.js" := {| Ext := "js"; Directives := [["style.css"]] |}]>
    (<["style.css" := {| Ext := "css"; Directives := [] |}]> ∅).

End Examples.

(** ** The extension graph of a registry *)

(** An edge for every registered (in-extension, out-extension) pair. *)
Definition ext_edge (reg : Registry.t) (a b : string) : Prop :=
  ∃ m, reg !! a = Some m ∧ is_Some (m !! b).

Definition acyclic (reg : Registry.t) : Prop := ∀ a, ¬ tc (ext_edge reg) a a.

(** Every registered in-extension has an entry, as [Register] ensures. *)
Definition populated (reg : Registry.t) : Prop :=
  ∀ e m, reg !! e = Some m → m ≠ ∅.

(** [flow_path reg inExt hs]: from [inExt] on, every extension has one
    entry only, in flow mode, up to an extension for which [FindHandlers]
    finds nothing; [hs] are the handlers of these entries, in order. *)
Inductive flow_path (reg : Registry.t) : string → list Handler → Prop :=
| flow_path_end inExt :
    Registry.FindHandlers reg inExt = None → flow_path reg inExt []
| flow_path_step inExt outExt rh options hs :
    Registry.FindHandlers reg inExt = Some {[outExt := rh]} →
    ROptions rh = Some options → OptInputMode options = InputModeFlow →
    flow_path reg outExt hs → flow_path reg inExt (RHandler rh :: hs).

(** The chain [buildHandlerChain] leaves when it adds the handlers [hs] to
    [chain]: the default step stands in for an empty chain. *)
Definition built_chain (inExt : string) (chain hs : list Handler) : list Handler :=
  if decide (chain ++ hs = []) then [NewDefaultHandler inExt] else chain ++ hs.

(** ** Compatibility of two chains *)

(** No step of [a] has the output extension of a step of [b]. *)
Definition disjoint_exts (a b : list Handler) : Prop :=
  ∀ x y, x ∈ a → y ∈ b → OutputExt x ≠ OutputExt y.

(** The same, for the chains two handlers of a store have. *)
Definition disjoint_in (s : Merge.store) (c p : ptr) : Prop :=
  ∃ fc fp, s !! c = Some fc ∧ s !! p = Some fp ∧
           disjoint_exts (HandlerChain fc) (HandlerChain fp).

(** ** What merging keeps of a store *)

Definition exts (chain : list Handler) : list string := OutputExt <$> chain.

(** [f'] is handler [f] later on: the same output extensions occur in its
    chain, its parents are the same up to order, the rest is unchanged. *)
Record evolves (f f' : FileHandler) : Prop := {
  ev_exts : ∀ e, e ∈ exts (HandlerChain f') ↔ e ∈ exts (HandlerChain f);
  ev_fileSet : FileSet f' = FileSet f;
  ev_parents : ParentHandlers f' ≡ₚ ParentHandlers f;
  ev_file : File f' = File f
}.

Definition store_evolves (s s' : Merge.store) : Prop :=
  length s' = length s ∧
  ∀ q f, s !! q = Some f → ∃ f', s' !! q = Some f' ∧ evolves f f'.

(** No handler has a nil parent. *)
Definition parents_valid (s : Merge.store) : Prop :=
  ∀ q f p, s !! q = Some f → p ∈ ParentHandlers f → p < length s.

(** No handler is its own parent. *)
Definition no_self_parent (s : Merge.store) : Prop :=
  ∀ q f, s !! q = Some f → q ∉ ParentHandlers f.

(** How often [q] stands in a list of handlers. *)
Definition occurrences (q : ptr) (l : list ptr) : nat :=
  length (filter (λ x, x = q) l).

(** The parent lists mirror the file sets: [p] is a parent of [c] exactly
    when [c], another handler, stands in the file set of [p]. *)
Definition mirrored (s : Merge.store) : Prop :=
  ∀ p c fp fc, s !! p = Some fp → s !! c = Some fc →
    (p ∈ ParentHandlers fc ↔ c ∈ FileSet fp ∧ c ≠ p).

(** ** What linking keeps of a store *)

(** [s'] has the handlers of [s], with the same chains and with file sets
    that only grew. *)
Definition extends (s s' : Merge.store) : Prop :=
  length s' = length s ∧
  ∀ q f, s !! q = Some f →
    ∃ f', s' !! q = Some f' ∧ HandlerChain f' = HandlerChain f ∧
          ∀ k, k ∈ FileSet f → k ∈ FileSet f'.

(** The state of a manifest between the first and the second loop of
    [ConfigureHandlers]: one handler per file, allocated in order, none
    linked yet, no two files sharing one. *)
Definition fresh (m : Orchestrator.Manifest) : Prop :=
  Orchestrator.fileHandlers m = seq 0 (length (Orchestrator.handlers m)) ∧
  (∀ q f, Orchestrator.handlers m !! q = Some f →
     FileSet f = [] ∧ ParentHandlers f = []) ∧
  (∀ path k, Orchestrator.FileHandlerOf m !! path = Some k →
     k < length (Orchestrator.handlers m)) ∧
  (∀ p1 p2 k, Orchestrator.FileHandlerOf m !! p1 = Some k →
     Orchestrator.FileHandlerOf m !! p2 = Some k → p1 = p2).

(** Every file of the manifest has a handler that records it, and every
    handler is the handler of a file. *)
Definition filed (m : Orchestrator.Manifest) : Prop :=
  (∀ path k, Orchestrator.FileHandlerOf m !! path = Some k →
     ∃ x, Orchestrator.handlers m !! k = Some x ∧ File x = Some path) ∧
  (∀ k, k < length (Orchestrator.handlers m) →
     ∃ path, Orchestrator.FileHandlerOf m !! path = Some k).

(** * Properties *)

(** ** Extension registry *)

Module RegistryFacts.
Import Registry.

Lemma Register_lookup_in inExt outExt h o (reg : Registry.t) :
  Register inExt outExt h o reg !! inExt =
    Some (<[outExt := {| RHandler := h; ROptions := o |}]> (default ∅ (reg !! inExt))).
Proof.
  unfold Register. rewrite lookup_insert_eq. by destruct (reg !! inExt).
Qed.

Lemma Register_lookup_other inExt outExt h o (reg : Registry.t) e :
  e ≠ inExt → Register inExt outExt h o reg !! e = reg !! e.
Proof. intros Hne. unfold Register. by rewrite lookup_insert_ne. Qed.

Lemma after_snoc cs c : after (cs ++ [c]) = apply_call (after cs) c.
Proof. unfold after. by rewrite foldl_app. Qed.

Lemma registered_for_snoc cs c e :
  registered_for (cs ++ [c]) e =
    if String.eqb (c_in c) e
    then <[c_out c := {| RHandler := c_handler c; ROptions := c_options c |}]>
           (registered_for cs e)
    else registered_for cs e.
Proof. unfold registered_for. by rewrite foldl_app. Qed.

Lemma has_registration_snoc cs c e :
  has_registration (cs ++ [c]) e = has_registration cs e || String.eqb (c_in c) e.
Proof. unfold has_registration. rewrite existsb_app. simpl. by rewrite orb_false_r. Qed.

Lemma registered_for_unregistered cs e :
  has_registration cs e = false → registered_for cs e = ∅.
Proof.
  induction cs as [|c cs IH] using rev_ind; [done|].
  rewrite has_registration_snoc, registered_for_snoc.
  intros [Hcs Hc]%orb_false_elim. rewrite Hc. auto.
Qed.

(** The registry built by a sequence of calls holds, for each in-extension,
    exactly what the calls registered for it. *)
Lemma after_lookup cs e :
  after cs !! e = if has_registration cs e then Some (registered_for cs e) else None.
Proof.
  induction cs as [|c cs IH] using rev_ind; [done|].
  rewrite after_snoc, registered_for_snoc, has_registration_snoc.
  unfold apply_call.
  destruct (String.eqb_spec (c_in c) e) as [->|Hne].
  - rewrite Register_lookup_in, IH, orb_true_r.
    destruct (has_registration cs e) eqn:Hreg; simpl; [done|].
    by rewrite registered_for_unregistered.
  - rewrite Register_lookup_other by congruence.
    by rewrite orb_false_r.
Qed.

Lemma after_populated cs : populated (after cs).
Proof.
  induction cs as [|c cs IH] using rev_ind.
  - intros e m Hm. unfold after, registeredHandlers in Hm. simpl in Hm.
    by rewrite lookup_empty in Hm.
  - rewrite after_snoc. unfold apply_call. intros e m.
    destruct (decide (e = c_in c)) as [->|Hne].
    + rewrite Register_lookup_in. intros [= <-]. apply insert_non_empty.
    + rewrite Register_lookup_other by done. apply IH.
Qed.

(** C8.  [Register] puts the new entry under (inExt, outExt), keeps every
    other out-extension of inExt and every other in-extension as it was; and
    after any sequence of [Register] calls, [FindHandlers] returns for an
    extension with registrations the full map of its out-extensions (last
    registration of each pair), otherwise the map of the wildcard, otherwise
    the nil map. *)
Theorem Register_FindHandlers_contract :
  (∀ (reg : Registry.t) inExt outExt h o,
     ∃ entries,
       Register inExt outExt h o reg !! inExt = Some entries ∧
       entries !! outExt = Some {| RHandler := h; ROptions := o |} ∧
       (∀ out', out' ≠ outExt → entries !! out' = reg !! inExt ≫= (.!! out')) ∧
       (∀ in', in' ≠ inExt → Register inExt outExt h o reg !! in' = reg !! in')) ∧
  (∀ cs inExt,
     FindHandlers (after cs) inExt =
       if has_registration cs inExt then Some (registered_for cs inExt)
       else if has_registration cs "*" then Some (registered_for cs "*")
       else None).
Proof.
  split.
  - intros reg inExt outExt h o. eexists. split; [apply Register_lookup_in|].
    split; [by rewrite lookup_insert_eq|]. split.
    + intros out' Hne. rewrite lookup_insert_ne by done.
      destruct (reg !! inExt); [done|]. simpl. apply lookup_empty.
    + intros in' Hne. by apply Register_lookup_other.
  - intros cs inExt. unfold FindHandlers. rewrite !after_lookup.
    by destruct (has_registration cs inExt).
Qed.

(** *** How registrations compose *)

(** X6.  Registering the same pair again replaces the earlier entry, and
    registrations of different (in, out) pairs can be made in either
    order. *)
Theorem Register_compose (reg : Registry.t) :
  (∀ inExt outExt h1 o1 h2 o2,
     Register inExt outExt h2 o2 (Register inExt outExt h1 o1 reg)
       = Register inExt outExt h2 o2 reg) ∧
  (∀ in1 out1 h1 o1 in2 out2 h2 o2,
     (in1, out1) ≠ (in2, out2) →
     Register in2 out2 h2 o2 (Register in1 out1 h1 o1 reg)
       = Register in1 out1 h1 o1 (Register in2 out2 h2 o2 reg)).
Proof.
  split.
  - intros inExt outExt h1 o1 h2 o2. apply map_eq. intros e.
    destruct (decide (e = inExt)) as [->|He].
    + rewrite !Register_lookup_in. simpl. by rewrite insert_insert_eq.
    + by rewrite !Register_lookup_other.
  - intros in1 out1 h1 o1 in2 out2 h2 o2 Hne.
    apply map_eq. intros e.
    destruct (decide (in1 = in2)) as [<-|Hin].
    + destruct (decide (e = in1)) as [->|He].
      * rewrite !Register_lookup_in. simpl. f_equal.
        apply insert_insert_ne. congruence.
      * by rewrite !Register_lookup_other.
    + destruct (decide (e = in1)) as [->|He1]; [|destruct (decide (e = in2)) as [->|He2]].
      * rewrite Register_lookup_other by done. rewrite !Register_lookup_in.
        by rewrite Register_lookup_other.
      * rewrite Register_lookup_in. rewrite !Register_lookup_other by done.
        by rewrite Register_lookup_in.
      * by rewrite !Register_lookup_other.
Qed.

End RegistryFacts.

(** ** FD budget *)

Module FDFacts.
Import FD.

Lemma try_send_Some c c' :
  try_send c = Some c' ↔
    chan_len c < chan_cap c ∧ c' = {| chan_cap := chan_cap c; chan_len := S (chan_len c) |}.
Proof.
  unfold try_send. destruct (Nat.ltb_spec (chan_len c) (chan_cap c)); split.
  - intros [= <-]. auto.
  - intros [_ ->]. done.
  - done.
  - intros [? _]. lia.
Qed.

Lemma try_send_None c : try_send c = None ↔ chan_cap c ≤ chan_len c.
Proof.
  unfold try_send. destruct (Nat.ltb_spec (chan_len c) (chan_cap c)); split;
    (done || lia).
Qed.

Lemma try_recv_Some c c' :
  try_recv c = Some c' →
    chan_cap c' = chan_cap c ∧ S (chan_len c') = chan_len c.
Proof. unfold try_recv. destruct (chan_len c); [done|]. by intros [= <-]. Qed.

Lemma int_wrap_small z : (- 2 ^ 63 ≤ z < 2 ^ 63)%Z → int_wrap z = z.
Proof. intros Hz. unfold int_wrap. rewrite Z.mod_small; lia. Qed.

(** The loop keeps the capacity, never lowers the count and never overfills. *)
Lemma shouldOpenFD_loop_bounds fuel : ∀ c n c' ok,
  shouldOpenFD_loop fuel c n = Some (c', ok) →
  chan_cap c' = chan_cap c ∧ chan_len c ≤ chan_len c' ∧ (within c → within c').
Proof.
  induction fuel as [|fuel IH]; intros c n c' ok; simpl; [done|].
  destruct (try_send c) as [c1|] eqn:Hsend.
  - apply try_send_Some in Hsend as [Hlt ->].
    destruct (int_wrap (n - 1) =? 0)%Z.
    + intros [= <- <-]. unfold within; simpl. lia.
    + intros Hrec. apply IH in Hrec as (Hcap & Hlen & Hin). simpl in *.
      unfold within in *. simpl in *. lia.
  - intros [= <- <-]. auto.
Qed.

(** A failed attempt stops at the [default] case, which is taken only when
    the buffer is full. *)
Lemma shouldOpenFD_loop_false fuel : ∀ c n c',
  shouldOpenFD_loop fuel c n = Some (c', false) → chan_cap c' ≤ chan_len c'.
Proof.
  induction fuel as [|fuel IH]; intros c n c'; simpl; [done|].
  destruct (try_send c) as [c1|] eqn:Hsend.
  - destruct (int_wrap (n - 1) =? 0)%Z; [done|]. apply IH.
  - intros [= <-]. by apply try_send_None.
Qed.

Lemma shouldOpenFD_loop_returns fuel : ∀ c n,
  chan_cap c - chan_len c < fuel → is_Some (shouldOpenFD_loop fuel c n).
Proof.
  induction fuel as [|fuel IH]; intros c n Hfuel; simpl; [lia|].
  destruct (try_send c) as [c1|] eqn:Hsend; [|done].
  apply try_send_Some in Hsend as [Hlt ->].
  destruct (int_wrap (n - 1) =? 0)%Z; [done|].
  apply IH. simpl. lia.
Qed.

(** [shouldOpenFD] always returns. *)
Lemma shouldOpenFD_returns c n : is_Some (shouldOpenFD c n).
Proof. apply shouldOpenFD_loop_returns. lia. Qed.

(** With room for [k ≥ 1] permits the attempt claims exactly [k]. *)
Lemma shouldOpenFD_loop_success k : ∀ fuel c,
  1 ≤ k → (Z.of_nat k < 2 ^ 63)%Z → chan_len c + k ≤ chan_cap c → k ≤ fuel →
  shouldOpenFD_loop fuel c (Z.of_nat k) =
    Some ({| chan_cap := chan_cap c; chan_len := chan_len c + k |}, true).
Proof.
  induction k as [|k IH]; intros fuel c Hk Hint Hroom Hfuel; [lia|].
  destruct fuel as [|fuel]; [lia|]. simpl shouldOpenFD_loop.
  destruct (try_send c) as [c1|] eqn:Hsend.
  2: { apply try_send_None in Hsend. lia. }
  apply try_send_Some in Hsend as [_ ->].
  rewrite int_wrap_small by lia.
  replace (Z.of_nat (S k) - 1)%Z with (Z.of_nat k) by lia.
  destruct k as [|k].
  - simpl. do 3 f_equal. lia.
  - destruct (Z.eqb_spec (Z.of_nat (S k)) 0); [lia|].
    rewrite IH by (simpl; lia). simpl. do 3 f_equal. lia.
Qed.

Lemma shouldOpenFD_success k c :
  1 ≤ k → (Z.of_nat k < 2 ^ 63)%Z → chan_len c + k ≤ chan_cap c →
  shouldOpenFD c (Z.of_nat k) =
    Some ({| chan_cap := chan_cap c; chan_len := chan_len c + k |}, true).
Proof. intros. apply shouldOpenFD_loop_success; [done..|lia]. Qed.

(** With room for fewer than [k] permits the attempt fails, and keeps the
    permits it found free. *)
Lemma shouldOpenFD_loop_short free : ∀ fuel c k,
  within c → chan_cap c - chan_len c = free → free < k → free < fuel →
  (Z.of_nat k < 2 ^ 63)%Z →
  shouldOpenFD_loop fuel c (Z.of_nat k) =
    Some ({| chan_cap := chan_cap c; chan_len := chan_cap c |}, false).
Proof.
  induction free as [|free IH]; intros fuel c k Hin Hfree Hk Hfuel Hint;
    (destruct fuel as [|fuel]; [lia|]); simpl shouldOpenFD_loop; unfold within in Hin.
  - destruct (try_send c) as [c1|] eqn:Hsend.
    { apply try_send_Some in Hsend as [? _]. lia. }
    destruct c as [cap len]. simpl in *. do 3 f_equal. lia.
  - destruct (try_send c) as [c1|] eqn:Hsend.
    2: { apply try_send_None in Hsend. lia. }
    apply try_send_Some in Hsend as [_ ->].
    rewrite int_wrap_small by lia.
    replace (Z.of_nat k - 1)%Z with (Z.of_nat (k - 1)) by lia.
    destruct (Z.eqb_spec (Z.of_nat (k - 1)) 0); [lia|].
    rewrite IH; [done|unfold within; simpl; lia|simpl; lia|lia|lia|lia].
Qed.

Lemma shouldOpenFD_short k c :
  chan_len c ≤ chan_cap c → chan_cap c - chan_len c < k → (Z.of_nat k < 2 ^ 63)%Z →
  shouldOpenFD c (Z.of_nat k) =
    Some ({| chan_cap := chan_cap c; chan_len := chan_cap c |}, false).
Proof.
  intros. by apply (shouldOpenFD_loop_short (chan_cap c - chan_len c)); [..|lia|].
Qed.

Lemma exec_within o c c' :
  within c → exec o c = Some c' →
  within c' ∧ chan_cap c' = configured [o] (chan_cap c).
Proof.
  intros Hin. destruct o as [n| | |limit]; simpl.
  - destruct (shouldOpenFD c n) as [[c1 ok]|] eqn:Hrun; [|done].
    intros [= <-]. apply shouldOpenFD_loop_bounds in Hrun as (? & ? & ?). auto.
  - intros Hs. apply try_send_Some in Hs as [? ->]. unfold within. simpl. split; lia.
  - intros Hr. apply try_recv_Some in Hr as [? ?]. unfold within in *. split; lia.
  - unfold SetFDLimit. destruct (limit <? 0)%Z; [done|].
    intros [= <-]. unfold within. simpl. split; lia.
Qed.

Lemma configured_cons o ops cap :
  configured (o :: ops) cap = configured ops (configured [o] cap).
Proof. by destruct o. Qed.

Lemma run_within ops : ∀ c c',
  within c → run ops c = Some c' →
  within c' ∧ chan_cap c' = configured ops (chan_cap c).
Proof.
  induction ops as [|o ops IH]; intros c c' Hin; simpl run.
  - intros [= <-]. auto.
  - destruct (exec o c) as [c1|] eqn:Hexec; [|done].
    intros Hrun. apply exec_within in Hexec as [Hin1 Hcap1]; [|done].
    apply IH in Hrun as [? ?]; [|done].
    rewrite configured_cons, <- Hcap1. auto.
Qed.

(** C9.  Whatever operations have completed on the bucket since process
    start (try-acquires that succeeded or failed, blocking acquires,
    releases, changes of the limit), the permits held do not exceed the
    capacity, which is that of the last [SetFDLimit] and 10 if there was
    none. *)
Theorem fdBucket_within_capacity ops c :
  run ops fdBucket = Some c →
  chan_len c ≤ chan_cap c ∧ chan_cap c = configured ops 10.
Proof.
  intros Hrun. apply (run_within ops fdBucket c) in Hrun; [done|].
  unfold within. simpl. lia.
Qed.

Lemma fdBucket_within_capacity_witness :
  let ops := [OpShouldOpenFD 3; OpWaitFD; OpFdClosed; OpShouldOpenFD 20;
              OpSetFDLimit 4; OpWaitFD; OpShouldOpenFD 5; OpFdClosed] in
  run ops fdBucket = Some {| chan_cap := 4; chan_len := 3 |} ∧
  3 ≤ 4 ∧ 4 = configured ops 10.
Proof.
  split; [reflexivity|].
  apply (fdBucket_within_capacity
           [OpShouldOpenFD 3; OpWaitFD; OpFdClosed; OpShouldOpenFD 20;
            OpSetFDLimit 4; OpWaitFD; OpShouldOpenFD 5; OpFdClosed]
           {| chan_cap := 4; chan_len := 3 |}).
  reflexivity.
Defined.

(** C1 (the code departs from it).  A try-acquire that fails always leaves
    the bucket full: the permits it claimed before meeting the full buffer
    stay claimed.  The count is as before only when the bucket was already
    full. *)
Theorem shouldOpenFD_failure_fills_bucket c n c' :
  chan_len c ≤ chan_cap c →
  shouldOpenFD c n = Some (c', false) →
  chan_cap c' = chan_cap c ∧ chan_len c' = chan_cap c.
Proof.
  intros Hin Hrun. unfold shouldOpenFD in Hrun.
  pose proof (shouldOpenFD_loop_false _ _ _ _ Hrun) as Hfull.
  apply shouldOpenFD_loop_bounds in Hrun as (Hcap & _ & Hin').
  specialize (Hin' Hin). unfold within in Hin'. lia.
Qed.

Lemma shouldOpenFD_failure_fills_bucket_witness :
  shouldOpenFD {| chan_cap := 10; chan_len := 9 |} 2
    = Some ({| chan_cap := 10; chan_len := 10 |}, false) ∧
  chan_len {| chan_cap := 10; chan_len := 10 |} = 10.
Proof.
  split; [reflexivity|].
  apply (shouldOpenFD_failure_fills_bucket {| chan_cap := 10; chan_len := 9 |} 2
           {| chan_cap := 10; chan_len := 10 |}); [simpl; lia | reflexivity].
Defined.

(** C4 (the code departs from it).  A stage whose handler declares [k ≥ 2]
    descriptors and finds them free claims [k] permits and releases one: the
    single deferred [fdClosed].  [k - 1] permits stay claimed after the
    stage. *)
Theorem handlerFn_releases_one name out k copyFails c :
  2 ≤ k → (Z.of_nat k < 2 ^ 63)%Z → chan_len c + k ≤ chan_cap c →
  handlerFn (Transformation name out (Some (Z.of_nat k))) copyFails c =
    Some {| after := {| chan_cap := chan_cap c; chan_len := chan_len c + k - 1 |};
            claimed := k; released := 1 |}.
Proof.
  intros Hk Hint Hroom. unfold handlerFn, RequiredFds. cbv beta iota.
  assert ((0 <? Z.of_nat k)%Z = true) as -> by (apply Z.ltb_lt; lia).
  rewrite shouldOpenFD_success by (done || lia).
  unfold fdClosed, try_recv. simpl.
  destruct (chan_len c + k) as [|m] eqn:Hm; [lia|]. simpl.
  f_equal. f_equal; [f_equal|]; lia.
Qed.

Lemma handlerFn_releases_one_witness :
  handlerFn (Transformation "minify" "js" (Some 2%Z)) false fdBucket =
    Some {| after := {| chan_cap := 10; chan_len := 1 |}; claimed := 2; released := 1 |}.
Proof.
  apply (handlerFn_releases_one "minify" "js" 2 false fdBucket); simpl; lia.
Defined.

(** *** More on the two acquisition protocols *)

(** X1.  What [shouldOpenFD(k)] does for [k ≥ 1] on a bucket with [free]
    permits left: with [k ≤ free] it claims exactly [k] and returns true,
    otherwise it claims all [free] and returns false. *)
Theorem shouldOpenFD_positive k c :
  chan_len c ≤ chan_cap c → 1 ≤ k → (Z.of_nat k < 2 ^ 63)%Z →
  shouldOpenFD c (Z.of_nat k) =
    if decide (chan_len c + k ≤ chan_cap c)
    then Some ({| chan_cap := chan_cap c; chan_len := chan_len c + k |}, true)
    else Some ({| chan_cap := chan_cap c; chan_len := chan_cap c |}, false).
Proof.
  intros Hin Hk Hint. destruct (decide _) as [Hroom|Hshort].
  - by apply shouldOpenFD_success.
  - apply shouldOpenFD_short; [done|lia|done].
Qed.

Lemma shouldOpenFD_positive_witness :
  shouldOpenFD {| chan_cap := 10; chan_len := 6 |} 4
    = Some ({| chan_cap := 10; chan_len := 10 |}, true) ∧
  shouldOpenFD {| chan_cap := 10; chan_len := 6 |} 5
    = Some ({| chan_cap := 10; chan_len := 10 |}, false).
Proof.
  split.
  - apply (shouldOpenFD_positive 4 {| chan_cap := 10; chan_len := 6 |}); simpl; lia.
  - apply (shouldOpenFD_positive 5 {| chan_cap := 10; chan_len := 6 |}); simpl; lia.
Defined.

Lemma shouldOpenFD_loop_nonpositive free : ∀ fuel c n,
  within c → chan_cap c - chan_len c = free → free < fuel →
  (n ≤ 0)%Z → (- 2 ^ 63 ≤ n - Z.of_nat free)%Z →
  shouldOpenFD_loop fuel c n =
    Some ({| chan_cap := chan_cap c; chan_len := chan_cap c |}, false).
Proof.
  induction free as [|free IH]; intros fuel c n Hin Hfree Hfuel Hn Hint;
    (destruct fuel as [|fuel]; [lia|]); simpl shouldOpenFD_loop; unfold within in Hin.
  - destruct (try_send c) as [c1|] eqn:Hsend.
    { apply try_send_Some in Hsend as [? _]. lia. }
    destruct c as [cap len]. simpl in *. do 3 f_equal. lia.
  - destruct (try_send c) as [c1|] eqn:Hsend.
    2: { apply try_send_None in Hsend. lia. }
    apply try_send_Some in Hsend as [_ ->].
    rewrite int_wrap_small by lia.
    destruct (Z.eqb_spec (n - 1) 0); [lia|].
    rewrite IH; [done|unfold within; simpl; lia|simpl; lia|lia|lia|lia].
Qed.

(** X2.  [shouldOpenFD(n)] with [n ≤ 0] never succeeds: the counter is
    decremented away from zero, so the loop claims every free permit and
    returns false on the full bucket. *)
Theorem shouldOpenFD_nonpositive c n :
  chan_len c ≤ chan_cap c → (n ≤ 0)%Z →
  (- 2 ^ 63 ≤ n - Z.of_nat (chan_cap c - chan_len c))%Z →
  shouldOpenFD c n = Some ({| chan_cap := chan_cap c; chan_len := chan_cap c |}, false).
Proof.
  intros. by apply (shouldOpenFD_loop_nonpositive (chan_cap c - chan_len c)); [..|lia|done|].
Qed.

Lemma shouldOpenFD_nonpositive_witness :
  shouldOpenFD fdBucket 0 = Some ({| chan_cap := 10; chan_len := 10 |}, false).
Proof.
  apply (shouldOpenFD_nonpositive fdBucket 0); simpl; lia.
Defined.

(** X3.  The source-file protocol of [Handle] on a bucket with a free
    permit: it claims one permit; when [os.Open] succeeds the permit is
    released at the end of the copy and the bucket is as before, and when
    [os.Open] fails the permit is never released. *)
Theorem Handle_source_permit c :
  chan_len c < chan_cap c →
  Handle_source false c = Some {| after := c; claimed := 1; released := 1 |} ∧
  Handle_source true c =
    Some {| after := {| chan_cap := chan_cap c; chan_len := S (chan_len c) |};
            claimed := 1; released := 0 |}.
Proof.
  intros Hroom. unfold Handle_source. change 1%Z with (Z.of_nat 1).
  rewrite (shouldOpenFD_success 1 c) by lia. simpl.
  rewrite Nat.add_1_r. unfold fdClosed, try_recv. simpl.
  replace (S (chan_len c) - chan_len c) with 1 by lia.
  split; [|done]. by destruct c.
Qed.

Lemma Handle_source_permit_witness :
  Handle_source false fdBucket = Some {| after := fdBucket; claimed := 1; released := 1 |} ∧
  Handle_source true fdBucket =
    Some {| after := {| chan_cap := 10; chan_len := 1 |}; claimed := 1; released := 0 |}.
Proof. apply (Handle_source_permit fdBucket). simpl. lia. Defined.

(** X4.  A stage whose reservation of [k] descriptors fails can only go on
    when somebody else releases a permit: the failed attempt has filled the
    bucket, so the [waitFD] that follows blocks; and when buffering the input
    fails, the stage ends with the permits of the failed attempt still
    claimed. *)
Theorem handlerFn_failed_reservation name out k c :
  chan_len c ≤ chan_cap c → chan_cap c - chan_len c < k → (Z.of_nat k < 2 ^ 63)%Z →
  handlerFn (Transformation name out (Some (Z.of_nat k))) false c = None ∧
  handlerFn (Transformation name out (Some (Z.of_nat k))) true c =
    Some {| after := {| chan_cap := chan_cap c; chan_len := chan_cap c |};
            claimed := chan_cap c - chan_len c; released := 0 |}.
Proof.
  intros Hin Hshort Hint. unfold handlerFn, RequiredFds. cbv beta iota.
  assert ((0 <? Z.of_nat k)%Z = true) as -> by (apply Z.ltb_lt; lia).
  rewrite shouldOpenFD_short by done. split; [|done].
  unfold waitFD. assert (try_send {| chan_cap := chan_cap c; chan_len := chan_cap c |} = None)
    as -> by (apply try_send_None; simpl; lia). done.
Qed.

Lemma handlerFn_failed_reservation_witness :
  handlerFn (Transformation "minify" "js" (Some 2%Z)) false
    {| chan_cap := 10; chan_len := 9 |} = None ∧
  handlerFn (Transformation "minify" "js" (Some 2%Z)) true
    {| chan_cap := 10; chan_len := 9 |} =
    Some {| after := {| chan_cap := 10; chan_len := 10 |}; claimed := 1; released := 0 |}.
Proof.
  apply (handlerFn_failed_reservation "minify" "js" 2 {| chan_cap := 10; chan_len := 9 |});
    simpl; lia.
Defined.

(** X5.  A stage whose handler declares zero or fewer descriptors claims no
    permit, yet its deferred [fdClosed] takes one out of the bucket; on an
    empty bucket it blocks. *)
Theorem handlerFn_nonpositive name out nFds copyFails c :
  (nFds ≤ 0)%Z →
  handlerFn (Transformation name out (Some nFds)) copyFails c =
    match chan_len c with
    | O => None
    | S held =>
      Some {| after := {| chan_cap := chan_cap c; chan_len := held |};
              claimed := 0; released := 1 |}
    end.
Proof.
  intros Hn. unfold handlerFn, RequiredFds. cbv beta iota.
  assert ((0 <? nFds)%Z = false) as -> by (apply Z.ltb_ge; lia).
  unfold fdClosed, try_recv. by destruct (chan_len c).
Qed.

Lemma handlerFn_nonpositive_witness :
  handlerFn (Transformation "copy" "js" (Some 0%Z)) false {| chan_cap := 10; chan_len := 3 |} =
    Some {| after := {| chan_cap := 10; chan_len := 2 |}; claimed := 0; released := 1 |} ∧
  handlerFn (Transformation "copy" "js" (Some 0%Z)) false fdBucket = None.
Proof.
  split.
  - apply (handlerFn_nonpositive "copy" "js" 0 false {| chan_cap := 10; chan_len := 3 |}). lia.
  - apply (handlerFn_nonpositive "copy" "js" 0 false fdBucket). lia.
Defined.

End FDFacts.

(** ** Chain builder *)

Module BuilderFacts.
Import Registry Examples.

Lemma FindHandlers_unregistered (reg : Registry.t) inExt :
  reg !! inExt = None → reg !! "*" = None → FindHandlers reg inExt = None.
Proof. intros Hin Hstar. unfold FindHandlers. by rewrite Hin. Qed.

(** C7.  For an extension with no registration, in a registry with no
    wildcard registration, [NewFileHandler] returns, whenever it has fuel at
    all, a handler whose chain is the single default step, and the output
    extension of that step is the input extension. *)
Theorem NewFileHandler_default `{GoRuntime} (reg : Registry.t) fuel inExt :
  reg !! inExt = None → reg !! "*" = None →
  ∃ fh step,
    NewFileHandler reg (S fuel) inExt = Some (Done fh) ∧
    HandlerChain fh = [step] ∧
    step = NewDefaultHandler inExt ∧
    OutputExt step = inExt.
Proof.
  intros Hin Hstar.
  exists {| HandlerChain := [NewDefaultHandler inExt]; FileSet := [];
            ParentHandlers := []; File := None |}, (NewDefaultHandler inExt).
  split; [|done].
  unfold NewFileHandler. simpl.
  by rewrite (FindHandlers_unregistered reg inExt Hin Hstar).
Qed.

Lemma NewFileHandler_default_witness :
  ∃ fh step,
    @NewFileHandler stable_runtime reg_coffee 1 "txt" = Some (Done fh) ∧
    HandlerChain fh = [step] ∧
    step = NewDefaultHandler "txt" ∧
    OutputExt step = "txt".
Proof.
  apply (@NewFileHandler_default stable_runtime reg_coffee 0 "txt"); reflexivity.
Defined.

Lemma reg_fork_lookup e :
  reg_fork !! e =
    if decide (e = "js")
    then Some {["gz" := {| RHandler := gzip; ROptions := fork |}]}
    else None.
Proof.
  unfold reg_fork, Register, registeredHandlers. rewrite lookup_empty.
  destruct (decide (e = "js")) as [->|Hne].
  - by rewrite lookup_insert_eq, insert_empty.
  - by rewrite lookup_insert_ne, lookup_empty.
Qed.

Lemma reg_fork_edge a b : ext_edge reg_fork a b → a = "js" ∧ b = "gz".
Proof.
  intros (m & Hm & Hb). rewrite reg_fork_lookup in Hm.
  destruct (decide (a = "js")) as [->|]; [|done].
  injection Hm as <-. split; [done|].
  destruct (decide (b = "gz")) as [->|Hne]; [done|].
  rewrite lookup_singleton_ne in Hb by done. by destruct Hb.
Qed.

Lemma reg_fork_acyclic : acyclic reg_fork.
Proof.
  intros a Hcycle.
  assert (∀ x y, tc (ext_edge reg_fork) x y → x = "js" ∧ y = "gz") as Hends.
  { induction 1 as [x y Hxy | x y z Hxy _ [_ ->]];
      apply reg_fork_edge in Hxy as [-> ?]; auto. }
  by destruct (Hends _ _ Hcycle) as [-> ?].
Qed.

Lemma go_range_singleton `{GoRuntime} {V} site (k : string) (v : V) :
  go_range site ({[k := v]} : gmap string V) = [(k, v)].
Proof.
  apply Permutation_singleton_r. rewrite go_range_perm.
  by rewrite map_to_list_singleton.
Qed.

(** C2 (the code departs from it).  The registry that maps "js" to "gz" by
    one fork-mode entry has no cycle, yet [buildHandlerChain] on "js" returns
    with no amount of fuel: the fork branch calls [NewFileHandler] on the
    same extension, which meets the same entry again. *)
Theorem buildHandlerChain_fork_diverges `{GoRuntime} :
  acyclic reg_fork ∧
  ∀ fuel chain, buildHandlerChain reg_fork fuel "js" chain = None.
Proof.
  split; [apply reg_fork_acyclic|].
  induction fuel as [|fuel IH]; intros chain; [done|].
  simpl. unfold FindHandlers. rewrite reg_fork_lookup.
  rewrite decide_True by done. simpl.
  rewrite go_range_singleton. simpl. by rewrite IH.
Qed.

(** *** Registrations on which no chain is ever built *)

Section NeverBuilds.
Context `{GoRuntime}.
Variable reg : Registry.t.

(** The loop stops without a chain once a recursive call does. *)
Lemma range_handlers_fork build inExt out rh options : ∀ entries canAppendFlow chain chain',
  (out, rh) ∈ entries → ROptions rh = Some options →
  OptInputMode options = InputModeFork →
  (∀ sub, build inExt [] ≠ Some (Done sub)) →
  range_handlers build inExt entries canAppendFlow chain ≠ Some (Done chain').
Proof.
  induction entries as [|[out' rh'] rest IH]; intros can chain chain' Hin Hopt Hfork Hsub.
  { by apply elem_of_nil in Hin. }
  simpl. apply elem_of_cons in Hin as [[= <- <-]|Hin].
  - rewrite Hopt, Hfork. simpl.
    destruct (build inExt []) as [[sub| |]|] eqn:Hb; [by destruct (Hsub sub)|done..].
  - destruct (ROptions rh') as [options'|]; [|done].
    destruct (is_flow (OptInputMode options') && can).
    + destruct (build out' _) as [[c| |]|]; [by apply IH|done..].
    + destruct (build inExt []) as [[sub| |]|] eqn:Hb; [by destruct (Hsub sub)|done..].
Qed.

(** An extension with a fork-mode entry never gets a chain: the builder runs
    out of any fuel, or panics on an entry without options. *)
Lemma buildHandlerChain_fork_entry inExt m out rh options :
  Registry.FindHandlers reg inExt = Some m → m !! out = Some rh →
  ROptions rh = Some options → OptInputMode options = InputModeFork →
  ∀ fuel chain chain', buildHandlerChain reg fuel inExt chain ≠ Some (Done chain').
Proof.
  intros Hfind Hout Hopt Hfork. induction fuel as [|fuel IH]; intros chain chain'; [done|].
  simpl. rewrite Hfind. simpl.
  eapply range_handlers_fork; [|done..|by intros sub].
  rewrite go_range_perm. by apply elem_of_map_to_list.
Qed.

(** X10.  With a wildcard registration no extension at all gets a chain:
    the default step is never reached, and every chain would have to end in
    one. *)
Lemma buildHandlerChain_wildcard :
  populated reg → is_Some (reg !! "*") →
  ∀ fuel inExt chain chain', buildHandlerChain reg fuel inExt chain ≠ Some (Done chain').
Proof.
  intros Hpop [star Hstar]. induction fuel as [|fuel IH]; intros inExt chain chain'; [done|].
  simpl.
  assert (∃ m, Registry.FindHandlers reg inExt = Some m ∧ m ≠ ∅) as (m & -> & Hm).
  { unfold Registry.FindHandlers.
    destruct (reg !! inExt) as [m|] eqn:Hin; [exists m|exists star]; eauto. }
  simpl. destruct (go_range RangeHandlers m) as [|[out rh] rest] eqn:Hrange.
  { exfalso. apply Hm, map_to_list_empty_iff. symmetry. apply Permutation_nil_l.
    by rewrite <- (go_range_perm RangeHandlers m), Hrange. }
  simpl. destruct (ROptions rh) as [options|]; [|done].
  destruct (is_flow (OptInputMode options) && true).
  - destruct (buildHandlerChain _ _ _ _) as [[c| |]|] eqn:Hb; [by apply IH in Hb|done..].
  - destruct (buildHandlerChain _ _ _ _) as [[c| |]|] eqn:Hb; [by apply IH in Hb|done..].
Qed.

(** After a first entry, every entry takes the branch that calls
    [NewFileHandler] on the same extension. *)
Lemma buildHandlerChain_two_entries inExt m e1 e2 rest :
  Registry.FindHandlers reg inExt = Some m →
  go_range RangeHandlers m = e1 :: e2 :: rest →
  ∀ fuel chain chain', buildHandlerChain reg fuel inExt chain ≠ Some (Done chain').
Proof.
  intros Hfind Hrange. induction fuel as [|fuel IH]; intros chain chain'; [done|].
  simpl. rewrite Hfind, Hrange. simpl.
  destruct e1 as [out1 rh1], e2 as [out2 rh2]. simpl.
  assert (∀ can c, can = false →
            range_handlers (buildHandlerChain reg fuel) inExt ((out2, rh2) :: rest) can c
              ≠ Some (Done chain')) as Hsecond.
  { intros can c ->. simpl. destruct (ROptions rh2) as [o2|]; [|done].
    rewrite andb_false_r.
    destruct (buildHandlerChain reg fuel inExt []) as [[sub| |]|] eqn:Hb;
      [by apply IH in Hb|done..]. }
  destruct (ROptions rh1) as [o1|]; [|done].
  destruct (is_flow (OptInputMode o1) && true).
  - destruct (buildHandlerChain reg fuel out1 _) as [[c| |]|]; [by apply Hsecond|done..].
  - destruct (buildHandlerChain reg fuel inExt []) as [[sub| |]|] eqn:Hb;
      [by apply IH in Hb|done..].
Qed.

(** A chain is built only along single flow-mode entries. *)
Lemma buildHandlerChain_Done_entry inExt m fuel chain chain' :
  Registry.FindHandlers reg inExt = Some m → m ≠ ∅ →
  buildHandlerChain reg fuel inExt chain = Some (Done chain') →
  ∃ out rh options,
    m = {[out := rh]} ∧ ROptions rh = Some options ∧
    OptInputMode options = InputModeFlow.
Proof.
  intros Hfind Hm Hdone.
  destruct (go_range RangeHandlers m) as [|[out rh] [|e2 rest]] eqn:Hrange.
  - exfalso. apply Hm, map_to_list_empty_iff. symmetry. apply Permutation_nil_l.
    by rewrite <- (go_range_perm RangeHandlers m), Hrange.
  - assert (m = {[out := rh]}) as ->.
    { apply map_to_list_inj. rewrite map_to_list_singleton.
      by rewrite <- (go_range_perm RangeHandlers m), Hrange. }
    exists out, rh.
    destruct (ROptions rh) as [options|] eqn:Hopt.
    + exists options. split; [done|]. split; [done|].
      destruct (OptInputMode options) eqn:Hmode; [done|]. exfalso.
      eapply (buildHandlerChain_fork_entry inExt); [done| |done..].
      apply lookup_singleton_eq.
    + exfalso. destruct fuel as [|fuel]; [done|]. simpl in Hdone.
      rewrite Hfind, Hrange in Hdone. simpl in Hdone. by rewrite Hopt in Hdone.
  - exfalso. by eapply (buildHandlerChain_two_entries inExt).
Qed.

(** X7.  Along a path of single flow-mode entries that ends at an extension
    without handlers, [buildHandlerChain] appends the handlers of the path,
    in order, and nothing else: the default step is added only to a chain
    that would otherwise be empty. *)
Theorem buildHandlerChain_flow_path inExt hs :
  flow_path reg inExt hs →
  ∀ fuel chain, length hs < fuel →
    buildHandlerChain reg fuel inExt chain = Some (Done (built_chain inExt chain hs)).
Proof.
  induction 1 as [inExt Hnone | inExt outExt rh options hs Hfind Hopt Hflow _ IH];
    intros fuel chain Hfuel; (destruct fuel as [|fuel]; [simpl in Hfuel; lia|]); simpl.
  - rewrite Hnone. unfold built_chain. rewrite app_nil_r.
    destruct chain as [|h chain]; [done|].
    by destruct (decide (h :: chain = [])).
  - rewrite Hfind. simpl. rewrite go_range_singleton. simpl.
    rewrite Hopt, Hflow. simpl. rewrite IH by (simpl in Hfuel; lia).
    unfold built_chain. rewrite <- app_assoc. simpl.
    rewrite !decide_False; [done|..]; by destruct chain.
Qed.

(** X8.  The converse, for a registry filled by [Register]: whenever
    [buildHandlerChain] returns a chain, the registry holds such a path from
    the extension, and the chain returned is the one of X7; it is never
    empty and starts with the chain given. *)
Theorem buildHandlerChain_Done_flow_path :
  populated reg →
  ∀ fuel inExt chain chain',
    buildHandlerChain reg fuel inExt chain = Some (Done chain') →
    ∃ hs, flow_path reg inExt hs ∧ chain' = built_chain inExt chain hs ∧
          chain' ≠ [] ∧ (chain ≠ [] → chain' = chain ++ hs).
Proof.
  intros Hpop. induction fuel as [|fuel IH]; intros inExt chain chain' Hdone; [done|].
  destruct (Registry.FindHandlers reg inExt) as [m|] eqn:Hfind.
  - assert (m ≠ ∅) as Hm.
    { unfold Registry.FindHandlers in Hfind.
      destruct (reg !! inExt) as [m'|] eqn:Hin; [injection Hfind as ->|]; eauto. }
    destruct (buildHandlerChain_Done_entry _ _ _ _ _ Hfind Hm Hdone)
      as (out & rh & options & -> & Hopt & Hflow).
    simpl in Hdone. rewrite Hfind in Hdone. simpl in Hdone.
    rewrite go_range_singleton in Hdone. simpl in Hdone.
    rewrite Hopt, Hflow in Hdone. simpl in Hdone.
    destruct (buildHandlerChain reg fuel out (chain ++ [RHandler rh]))
      as [[c| |]|] eqn:Hrec; [|done..].
    injection Hdone as <-.
    destruct (IH _ _ _ Hrec) as (hs & Hpath & Hc & _ & Happ).
    exists (RHandler rh :: hs). split; [by eapply flow_path_step|].
    rewrite Happ by (by destruct chain). rewrite <- app_assoc. simpl.
    unfold built_chain. rewrite decide_False by (by destruct chain).
    split; [done|]. split; [by destruct chain|done].
  - simpl in Hdone. rewrite Hfind in Hdone. simpl in Hdone.
    exists []. split; [by apply flow_path_end|]. unfold built_chain. rewrite !app_nil_r.
    destruct chain as [|h chain]; simpl in Hdone; injection Hdone as <-; [done|].
    by destruct (decide (h :: chain = [])).
Qed.

(** X9.  An entry registered with nil options makes the builder panic: for
    an extension whose entries all lack options, [buildHandlerChain] panics
    on the first entry it visits. *)
Theorem buildHandlerChain_nil_options inExt m fuel chain :
  Registry.FindHandlers reg inExt = Some m → m ≠ ∅ →
  (∀ out rh, m !! out = Some rh → ROptions rh = None) →
  buildHandlerChain reg (S fuel) inExt chain =
    Some (Panicked "invalid memory address or nil pointer dereference").
Proof.
  intros Hfind Hm Hnil. simpl. rewrite Hfind. simpl.
  destruct (go_range RangeHandlers m) as [|[out rh] rest] eqn:Hrange.
  { exfalso. apply Hm, map_to_list_empty_iff. symmetry. apply Permutation_nil_l.
    by rewrite <- (go_range_perm RangeHandlers m), Hrange. }
  simpl. rewrite (Hnil out rh); [done|].
  apply elem_of_map_to_list. rewrite <- (go_range_perm RangeHandlers m), Hrange. by left.
Qed.

End NeverBuilds.

Lemma reg_coffee_path : flow_path reg_coffee "coffee" [coffee].
Proof.
  eapply (flow_path_step reg_coffee "coffee" "js"
            {| RHandler := coffee; ROptions := flow |}); [reflexivity..|].
  apply flow_path_end. reflexivity.
Qed.

Lemma buildHandlerChain_flow_path_witness :
  @buildHandlerChain stable_runtime reg_coffee 2 "coffee" [] = Some (Done [coffee]).
Proof.
  apply (@buildHandlerChain_flow_path stable_runtime reg_coffee "coffee" [coffee]
           reg_coffee_path 2 []).
  simpl. lia.
Defined.

Lemma reg_coffee_populated : populated reg_coffee.
Proof.
  apply (RegistryFacts.after_populated
           [{| c_in := "coffee"; c_out := "js"; c_handler := coffee; c_options := flow |}]).
Qed.

Lemma buildHandlerChain_Done_flow_path_witness :
  ∃ hs, flow_path reg_coffee "coffee" hs ∧
        [coffee] = built_chain "coffee" [] hs ∧
        [coffee] ≠ [] ∧ (@nil Handler ≠ [] → [coffee] = [] ++ hs).
Proof.
  apply (@buildHandlerChain_Done_flow_path stable_runtime reg_coffee
           reg_coffee_populated 2 "coffee" [] [coffee]).
  reflexivity.
Defined.

Lemma reg_wildcard_populated : populated reg_wildcard.
Proof.
  apply (RegistryFacts.after_populated
           [{| c_in := "*"; c_out := "gz"; c_handler := gzip; c_options := fork |}]).
Qed.

Lemma buildHandlerChain_wildcard_witness :
  @buildHandlerChain stable_runtime reg_wildcard 3 "txt" [] ≠ Some (Done [gzip]) ∧
  @buildHandlerChain stable_runtime reg_wildcard 3 "txt" [] = None.
Proof.
  split; [|reflexivity].
  apply (@buildHandlerChain_wildcard stable_runtime reg_wildcard reg_wildcard_populated).
  eexists. reflexivity.
Defined.

Lemma buildHandlerChain_nil_options_witness :
  @buildHandlerChain stable_runtime reg_no_options 1 "coffee" [] =
    Some (Panicked "invalid memory address or nil pointer dereference").
Proof.
  apply (@buildHandlerChain_nil_options stable_runtime reg_no_options "coffee"
           {["js" := {| RHandler := coffee; ROptions := None |}]} 0 []).
  - reflexivity.
  - apply insert_non_empty.
  - intros out rh Hrh. destruct (decide (out = "js")) as [->|Hne].
    + rewrite lookup_singleton_eq in Hrh. by injection Hrh as <-.
    + by rewrite lookup_singleton_ne in Hrh.
Defined.

End BuilderFacts.

(** ** Concatenation merge engine *)

Module MergeFacts.
Import Merge Examples.

(** *** [addHandlerAfterIndex] *)

Lemma insert_after_past handler index : ∀ chain i,
  index < i → insert_after i chain handler index = chain.
Proof.
  induction chain as [|h chain IH]; intros i Hlt; simpl; [done|].
  destruct (Nat.eqb_spec i index); [lia|]. rewrite IH by lia. done.
Qed.

Lemma insert_after_spec handler index : ∀ chain i,
  i ≤ index → index - i < length chain →
  insert_after i chain handler index =
    take (S (index - i)) chain ++ handler :: drop (S (index - i)) chain.
Proof.
  induction chain as [|h chain IH]; intros i Hle Hlt; simpl in *; [lia|].
  destruct (Nat.eqb_spec i index) as [->|Hne].
  - rewrite insert_after_past by lia. by rewrite Nat.sub_diag.
  - rewrite IH by lia. replace (index - i) with (S (index - S i)) by lia. done.
Qed.

(** *** The mode of a concatenation *)

Lemma concatenationMode_child_first pre post parent child :
  parent ∉ pre →
  concatenationMode (pre ++ child :: post) parent child = ConcatenationModePrepend.
Proof.
  induction pre as [|fh pre IH]; simpl; intros Hpre.
  - by rewrite bool_decide_eq_true_2.
  - apply not_elem_of_cons in Hpre as [Hne Hpre].
    destruct (bool_decide (fh = child)); [done|].
    rewrite bool_decide_eq_false_2 by congruence. auto.
Qed.

Lemma concatenationMode_self_first pre post parent child :
  child ≠ parent → child ∉ pre →
  concatenationMode (pre ++ parent :: post) parent child = ConcatenationModeAppend.
Proof.
  intros Hcp. induction pre as [|fh pre IH]; simpl; intros Hpre.
  - rewrite bool_decide_eq_false_2 by congruence. by rewrite bool_decide_eq_true_2.
  - apply not_elem_of_cons in Hpre as [Hne Hpre].
    rewrite bool_decide_eq_false_2 by congruence.
    destruct (bool_decide (fh = parent)); auto.
Qed.

Lemma concatenateAtIndex_Done parent child index (s : store) p h :
  s !! parent = Some p → HandlerChain p !! index = Some h →
  concatenateAtIndex parent child index s =
    Done (<[parent := with_chain p
              (take (S index) (HandlerChain p) ++
               ConcatenationHandler parent child
                 (concatenationMode (FileSet p) parent child) (OutputExt h)
               :: drop (S index) (HandlerChain p))]> s).
Proof.
  intros Hp Hh. unfold concatenateAtIndex, addHandlerAfterIndex, deref.
  rewrite Hp. simpl. rewrite Hh. simpl.
  rewrite insert_after_spec; rewrite ?Nat.sub_0_r; [done|lia|].
  by eapply lookup_lt_Some.
Qed.

(** The loop answers Append only for a child other than the parent, and
    only when it meets the parent before it meets the child. *)
Lemma concatenationMode_Append_inv fileSet parent child :
  concatenationMode fileSet parent child = ConcatenationModeAppend →
  child ≠ parent ∧ ∃ pre post, fileSet = pre ++ parent :: post ∧ child ∉ pre.
Proof.
  induction fileSet as [|fh rest IH]; simpl; [done|].
  destruct (bool_decide (fh = child)) eqn:Hchild; [done|].
  apply bool_decide_eq_false in Hchild.
  destruct (bool_decide (fh = parent)) eqn:Hparent.
  - apply bool_decide_eq_true in Hparent as ->. intros _. split; [congruence|].
    exists [], rest. split; [done|]. apply not_elem_of_nil.
  - intros (Hcp & pre & post & -> & Hpre)%IH. split; [done|].
    exists (fh :: pre), post. split; [done|].
    apply not_elem_of_cons. split; [congruence|done].
Qed.

(** C6, amended.  Concatenating a child into a parent inserts, after the
    matched step, a concatenation step whose mode is Append exactly when the
    child is not the parent itself and an entry for the parent stands in the
    parent's FileSet before any entry for the child.  In every other case
    the mode is Prepend: when the child stands there before any entry for the
    parent, and when the child is the parent itself, wherever its entry
    stands.  So [self, childA] gives Append and [childA, self] gives
    Prepend. *)
Theorem concatenateAtIndex_mode parent child index (s : store) p h :
  s !! parent = Some p → HandlerChain p !! index = Some h →
  ∃ mode,
    concatenateAtIndex parent child index s =
      Done (<[parent := with_chain p
                (take (S index) (HandlerChain p) ++
                 ConcatenationHandler parent child mode (OutputExt h)
                 :: drop (S index) (HandlerChain p))]> s) ∧
    (mode = ConcatenationModeAppend ↔
       child ≠ parent ∧
       ∃ pre post, FileSet p = pre ++ parent :: post ∧ child ∉ pre) ∧
    (mode ≠ ConcatenationModeAppend → mode = ConcatenationModePrepend) ∧
    (∀ pre post, FileSet p = pre ++ child :: post → parent ∉ pre →
       mode = ConcatenationModePrepend) ∧
    (child = parent → mode = ConcatenationModePrepend) ∧
    (child ≠ parent → FileSet p = [parent; child] → mode = ConcatenationModeAppend) ∧
    (FileSet p = [child; parent] → mode = ConcatenationModePrepend).
Proof.
  intros Hp Hh. exists (concatenationMode (FileSet p) parent child).
  split; [by apply concatenateAtIndex_Done|].
  assert (concatenationMode (FileSet p) parent child = ConcatenationModeAppend ↔
            child ≠ parent ∧
            ∃ pre post, FileSet p = pre ++ parent :: post ∧ child ∉ pre) as Hiff.
  { split; [apply concatenationMode_Append_inv|].
    intros (Hcp & pre & post & -> & Hpre). by apply concatenationMode_self_first. }
  split; [done|]. split; [|split; [|split; [|split]]].
  - by destruct (concatenationMode (FileSet p) parent child).
  - intros pre post -> Hpre. by apply concatenationMode_child_first.
  - intros Heq.
    destruct (concatenationMode (FileSet p) parent child) eqn:Hmode; [done|].
    by destruct (proj1 Hiff eq_refl) as [Hne _].
  - intros Hcp ->. by apply (concatenationMode_self_first [] [child]); [|apply not_elem_of_nil].
  - intros ->. apply (concatenationMode_child_first [] [parent]). apply not_elem_of_nil.
Qed.

Lemma concatenateAtIndex_mode_witness :
  concatenateAtIndex 1 0 0 store_long_child =
    Done [ {| HandlerChain := [a_to_b; b_to_c]; FileSet := [0]; ParentHandlers := [1];
              File := Some "child.a" |};
           {| HandlerChain :=
                [a_to_b; ConcatenationHandler 1 0 ConcatenationModeAppend "b"];
              FileSet := [1; 0]; ParentHandlers := []; File := Some "parent.a" |} ].
Proof.
  destruct (concatenateAtIndex_mode 1 0 0 store_long_child
              {| HandlerChain := [a_to_b]; FileSet := [1; 0]; ParentHandlers := [];
                 File := Some "parent.a" |} a_to_b)
    as (mode & Hrun & _ & _ & _ & _ & Happend & _); [reflexivity | reflexivity |].
  rewrite Hrun, (Happend ltac:(lia) eq_refl). reflexivity.
Defined.

(** *** [removeIncompatibleHandlers] *)

Lemma scan_b_Some ai b : ∀ j1 j,
  scan_b ai b j1 = Some j →
  j < j1 ∧ ∃ bj, b !! j = Some bj ∧ OutputExt ai = OutputExt bj.
Proof.
  induction j1 as [|j1 IH]; intros j; simpl; [done|].
  destruct (b !! j1) as [bj|] eqn:Hbj; [|done].
  destruct (String.eqb_spec (OutputExt ai) (OutputExt bj)) as [Heq|Hne].
  - intros [= <-]. split; [lia|]. eauto.
  - intros Hrec. apply IH in Hrec as [? ?]. split; [lia|done].
Qed.

Lemma scan_b_None ai b : ∀ j1,
  j1 ≤ length b → scan_b ai b j1 = None →
  ∀ j bj, j < j1 → b !! j = Some bj → OutputExt ai ≠ OutputExt bj.
Proof.
  induction j1 as [|j1 IH]; intros Hlen; simpl; [lia|].
  destruct (b !! j1) as [bj1|] eqn:Hbj1.
  2: { apply lookup_ge_None in Hbj1. lia. }
  destruct (String.eqb_spec (OutputExt ai) (OutputExt bj1)) as [Heq|Hne]; [done|].
  intros Hrec j bj Hj Hbj.
  destruct (decide (j = j1)) as [->|Hjne]; [congruence|].
  eapply (IH ltac:(lia) Hrec j); [lia|done].
Qed.

Lemma scan_a_Some a b : ∀ i1 i j,
  scan_a a b i1 = Some (i, j) →
  i < i1 ∧ ∃ ai bj, a !! i = Some ai ∧ b !! j = Some bj ∧ OutputExt ai = OutputExt bj.
Proof.
  induction i1 as [|i1 IH]; intros i j; simpl; [done|].
  destruct (a !! i1) as [ai|] eqn:Hai; [|done].
  destruct (scan_b ai b (length b)) as [j'|] eqn:Hscan.
  - intros [= <- <-]. apply scan_b_Some in Hscan as [_ (bj & ? & ?)].
    split; [lia|]. eauto.
  - intros Hrec. apply IH in Hrec as [? ?]. split; [lia|done].
Qed.

Lemma scan_a_None a b : ∀ i1,
  i1 ≤ length a → scan_a a b i1 = None →
  ∀ i ai y, i < i1 → a !! i = Some ai → y ∈ b → OutputExt ai ≠ OutputExt y.
Proof.
  induction i1 as [|i1 IH]; intros Hlen; simpl; [lia|].
  destruct (a !! i1) as [ai1|] eqn:Hai1.
  2: { apply lookup_ge_None in Hai1. lia. }
  destruct (scan_b ai1 b (length b)) as [j'|] eqn:Hscan; [by destruct j'|].
  intros Hrec i ai y Hi Hai Hy.
  destruct (decide (i = i1)) as [->|Hne].
  - assert (ai = ai1) as -> by congruence.
    apply list_elem_of_lookup in Hy as [j Hj].
    eapply scan_b_None; [|done| |done]; [lia|by eapply lookup_lt_Some].
  - eapply (IH ltac:(lia) Hrec i); [lia|done..].
Qed.

(** The two ways [removeIncompatibleHandlers] returns.  In neither does the
    caller's slice change: the shortened slice is the local [a]. *)
Lemma removeIncompatibleHandlers_cases a b :
  (disjoint_exts a b ∧ removeIncompatibleHandlers a b = (a, Failed incompatible)) ∨
  (∃ i j ai bj,
     removeIncompatibleHandlers a b = (take i a, Done j) ∧
     a !! i = Some ai ∧ b !! j = Some bj ∧ OutputExt ai = OutputExt bj).
Proof.
  unfold removeIncompatibleHandlers.
  destruct (scan_a a b (length a)) as [[i j]|] eqn:Hscan.
  - right. apply scan_a_Some in Hscan as [_ (ai & bj & ? & ? & ?)].
    by exists i, j, ai, bj.
  - left. split; [|done]. intros x y Hx Hy.
    apply list_elem_of_lookup in Hx as [i Hi].
    eapply scan_a_None; [|done| |done..]; [lia|by eapply lookup_lt_Some].
Qed.

Lemma removeIncompatibleHandlers_disjoint a b :
  disjoint_exts a b → removeIncompatibleHandlers a b = (a, Failed incompatible).
Proof.
  intros Hdis.
  destruct (removeIncompatibleHandlers_cases a b)
    as [[_ ?]|(i & j & ai & bj & _ & Hai & Hbj & Heq)]; [done|].
  exfalso. eapply Hdis; [| |done]; by eapply list_elem_of_lookup_2.
Qed.

(** *** What a merge keeps *)

Lemma evolves_refl f : evolves f f.
Proof. by split. Qed.

Lemma evolves_trans f g h : evolves f g → evolves g h → evolves f h.
Proof.
  intros [E1 F1 P1 L1] [E2 F2 P2 L2]. split.
  - intros e. by rewrite E2, E1.
  - congruence.
  - by rewrite P2.
  - congruence.
Qed.

Lemma store_evolves_refl s : store_evolves s s.
Proof. split; [done|]. intros q f Hq. exists f. split; [done|apply evolves_refl]. Qed.

Lemma store_evolves_trans s1 s2 s3 :
  store_evolves s1 s2 → store_evolves s2 s3 → store_evolves s1 s3.
Proof.
  intros [L12 H12] [L23 H23]. split; [congruence|].
  intros q f Hq. destruct (H12 q f Hq) as (g & Hg & Efg).
  destruct (H23 q g Hg) as (h & Hh & Egh).
  exists h. split; [done|]. by eapply evolves_trans.
Qed.

Lemma store_evolves_inv s s' q f' :
  store_evolves s s' → s' !! q = Some f' → ∃ f, s !! q = Some f ∧ evolves f f'.
Proof.
  intros [Hlen Hev] Hq.
  destruct (lookup_lt_is_Some_2 s q) as [f Hf].
  { rewrite <- Hlen. by eapply lookup_lt_Some. }
  destruct (Hev q f Hf) as (f'' & Hq' & Hevo).
  exists f. split; [done|]. congruence.
Qed.

Lemma store_evolves_insert (s : store) q f f' :
  s !! q = Some f → evolves f f' → store_evolves s (<[q := f']> s).
Proof.
  intros Hq Hev. split; [by rewrite length_insert|].
  intros r g Hr. destruct (decide (r = q)) as [->|Hne].
  - exists f'. rewrite list_lookup_insert_eq by (by eapply lookup_lt_Some).
    split; [done|]. congruence.
  - exists g. rewrite list_lookup_insert_ne by done. split; [done|apply evolves_refl].
Qed.

Lemma parents_valid_evolves s s' :
  store_evolves s s' → parents_valid s → parents_valid s'.
Proof.
  intros Hev Hval q f' p Hq Hp.
  destruct (store_evolves_inv _ _ _ _ Hev Hq) as (f & Hf & [_ _ Hperm _]).
  rewrite (proj1 Hev). eapply Hval; [done|]. by rewrite <- Hperm.
Qed.

Lemma disjoint_exts_alt a b :
  disjoint_exts a b ↔ ∀ e, e ∈ exts a → e ∉ exts b.
Proof.
  unfold disjoint_exts, exts. split.
  - intros Hdis e (x & -> & Hx)%list_elem_of_fmap (y & Heq & Hy)%list_elem_of_fmap.
    by eapply Hdis.
  - intros Hdis x y Hx Hy Heq. eapply (Hdis (OutputExt x)).
    + by apply list_elem_of_fmap_2.
    + rewrite Heq. by apply list_elem_of_fmap_2.
Qed.

Lemma evolves_disjoint fc fc' fp fp' :
  evolves fc fc' → evolves fp fp' →
  disjoint_exts (HandlerChain fc) (HandlerChain fp) ↔
  disjoint_exts (HandlerChain fc') (HandlerChain fp').
Proof.
  intros [Ec _ _ _] [Ep _ _ _]. rewrite !disjoint_exts_alt.
  split; intros Hdis e.
  - rewrite Ec, Ep. apply Hdis.
  - rewrite <- Ec, <- Ep. apply Hdis.
Qed.

Lemma store_evolves_disjoint_in s s' c p :
  store_evolves s s' → disjoint_in s c p ↔ disjoint_in s' c p.
Proof.
  intros Hev. split.
  - intros (fc & fp & Hc & Hp & Hdis).
    destruct (proj2 Hev c fc Hc) as (fc' & Hc' & Ec).
    destruct (proj2 Hev p fp Hp) as (fp' & Hp' & Ep).
    exists fc', fp'. split; [done|]. split; [done|].
    by apply (evolves_disjoint fc fc' fp fp').
  - intros (fc' & fp' & Hc' & Hp' & Hdis).
    destruct (store_evolves_inv _ _ _ _ Hev Hc') as (fc & Hc & Ec).
    destruct (store_evolves_inv _ _ _ _ Hev Hp') as (fp & Hp & Ep).
    exists fc, fp. split; [done|]. split; [done|].
    by apply (evolves_disjoint fc fc' fp fp').
Qed.

(** A concatenation step carries an extension its chain already has. *)
Lemma insert_evolves p index h handler :
  HandlerChain p !! index = Some h → OutputExt handler = OutputExt h →
  evolves p (with_chain p (take (S index) (HandlerChain p) ++
                           handler :: drop (S index) (HandlerChain p))).
Proof.
  intros Hh Hext. split; [|done..]. intros e. simpl. unfold exts.
  rewrite <- (take_drop (S index) (HandlerChain p)) at 3.
  rewrite !fmap_app, fmap_cons, !elem_of_app, elem_of_cons.
  split; [|tauto]. intros [?|[->|?]]; [tauto| |tauto].
  left. rewrite Hext. apply list_elem_of_fmap_2.
  apply list_elem_of_lookup. exists index.
  rewrite lookup_take_lt by lia. done.
Qed.

Lemma concatenateAtIndex_evolves parent child index (s : store) p h :
  s !! parent = Some p → HandlerChain p !! index = Some h →
  ∃ s', concatenateAtIndex parent child index s = Done s' ∧
        store_evolves s s' ∧
        ∀ q, q ≠ parent → s' !! q = s !! q.
Proof.
  intros Hp Hh. eexists. split; [by apply (concatenateAtIndex_Done _ _ _ _ p h)|]. split.
  - eapply store_evolves_insert; [done|]. by apply (insert_evolves p index h).
  - intros q Hne. by rewrite list_lookup_insert_ne.
Qed.

(** *** [MergeWithParents] *)

Section MergeWithParents.
Context `{GoRuntime}.

Lemma concatenateAtIndex_frame parent child index (s s' : store) q :
  concatenateAtIndex parent child index s = Done s' → q ≠ parent → s' !! q = s !! q.
Proof.
  unfold concatenateAtIndex, addHandlerAfterIndex, deref.
  destruct (s !! parent) as [p|]; [|done]. simpl.
  destruct (HandlerChain p !! index); [|done]. simpl.
  intros [= <-] Hne. by rewrite list_lookup_insert_ne.
Qed.

Lemma merge_loop_frame self : ∀ parents (s s' : store) q,
  merge_loop self parents s = Done s' → q ∉ parents → s' !! q = s !! q.
Proof.
  induction parents as [|parent rest IH]; intros s s' q; simpl.
  - by intros [= <-].
  - unfold deref. destruct (s !! self) as [c|]; [|done]. simpl.
    destruct (s !! parent) as [p|]; [|done]. simpl.
    destruct (removeIncompatibleHandlers _ _) as [a' [index|err|w]]; [|done..].
    destruct (concatenateAtIndex parent self index s) as [s1| |] eqn:Hcat; [|done..].
    simpl. intros Hloop [Hne Hrest]%not_elem_of_cons.
    rewrite (IH _ _ _ Hloop Hrest). by eapply concatenateAtIndex_frame.
Qed.

Lemma sort_byLenHandlerChain_Done (s : store) ps sorted :
  sort_byLenHandlerChain s ps = Done sorted → sorted ≡ₚ ps.
Proof.
  unfold sort_byLenHandlerChain. destruct (_ && _); [done|].
  intros [= <-]. apply go_sort_perm.
Qed.

Lemma sort_byLenHandlerChain_valid (s : store) ps :
  (∀ p, p ∈ ps → p < length s) →
  sort_byLenHandlerChain s ps = Done (go_sort (chain_len s) ps).
Proof.
  intros Hval. unfold sort_byLenHandlerChain.
  replace (forallb _ ps) with true; [by rewrite andb_false_r|].
  symmetry. apply forallb_forall. intros p Hp%list_elem_of_In.
  apply bool_decide_eq_true_2, lookup_lt_is_Some_2. auto.
Qed.

(** C3 (the code departs from it).  A merge that succeeds leaves the chain of
    the child exactly as it was: [removeIncompatibleHandlers] shortens only
    its own copy of the slice, and the concatenation step goes into the
    parent. *)
Theorem MergeWithParents_keeps_child_chain self (s s' : store) fh :
  s !! self = Some fh → self ∉ ParentHandlers fh →
  MergeWithParents self s = Done s' →
  HandlerChain <$> s' !! self = Some (HandlerChain fh).
Proof.
  intros Hself Hnot. unfold MergeWithParents, deref. rewrite Hself. simpl.
  destruct (sort_byLenHandlerChain s (ParentHandlers fh)) as [sorted| |] eqn:Hsort;
    [|done..].
  simpl. intros Hloop. apply sort_byLenHandlerChain_Done in Hsort.
  rewrite (merge_loop_frame _ _ _ _ self Hloop) by (by rewrite Hsort).
  rewrite list_lookup_insert_eq by (by eapply lookup_lt_Some). done.
Qed.

Lemma merge_loop_spec self : ∀ parents (s : store),
  is_Some (s !! self) → (∀ p, p ∈ parents → p < length s) →
  (merge_loop self parents s = Failed incompatible ∧
   ∃ p, p ∈ parents ∧ disjoint_in s self p) ∨
  (∃ s', merge_loop self parents s = Done s' ∧ store_evolves s s' ∧
         ∀ p, p ∈ parents → ¬ disjoint_in s self p).
Proof.
  induction parents as [|parent rest IH]; intros s [c Hc] Hval.
  { right. exists s. split; [done|]. split; [apply store_evolves_refl|].
    intros p Hp. by apply elem_of_nil in Hp. }
  destruct (lookup_lt_is_Some_2 s parent) as [p Hp]; [apply Hval; by left|].
  simpl. unfold deref. rewrite Hc. simpl. rewrite Hp. simpl.
  destruct (removeIncompatibleHandlers_cases (HandlerChain c) (HandlerChain p))
    as [[Hdis ->] | (i & j & ai & bj & -> & Hai & Hbj & Heq)].
  { left. split; [done|]. exists parent. split; [by left|]. by exists c, p. }
  destruct (concatenateAtIndex_evolves parent self j s p bj Hp Hbj)
    as (s1 & -> & Hev1 & _).
  simpl.
  destruct (IH s1) as [[-> (p' & Hin & Hdis)] | (s' & -> & Hev & Hnd)].
  - destruct (proj2 Hev1 self c Hc) as (c' & -> & _). done.
  - intros p' Hp'. rewrite (proj1 Hev1). apply Hval. by right.
  - left. split; [done|]. exists p'. split; [by right|].
    by apply (store_evolves_disjoint_in s s1).
  - right. exists s'. split; [done|]. split; [by eapply store_evolves_trans|].
    intros p' [->|Hin]%elem_of_cons.
    + intros (fc & fp & Hfc & Hfp & Hdis).
      assert (fc = c) as -> by congruence. assert (fp = p) as -> by congruence.
      eapply Hdis; [| |done]; by eapply list_elem_of_lookup_2.
    + intros Hdis. apply (Hnd p' Hin). by apply (store_evolves_disjoint_in s s1).
Qed.

(** A merge on a store without nil parents either fails with the
    incompatibility error, at a parent whose chain shares no extension with
    the child's, or succeeds, and then every parent shares one. *)
Lemma MergeWithParents_spec self (s : store) fh :
  parents_valid s → s !! self = Some fh →
  (MergeWithParents self s = Failed incompatible ∧
   ∃ p, p ∈ ParentHandlers fh ∧ disjoint_in s self p) ∨
  (∃ s', MergeWithParents self s = Done s' ∧ store_evolves s s' ∧
         ∀ p, p ∈ ParentHandlers fh → ¬ disjoint_in s self p).
Proof.
  intros Hval Hself. unfold MergeWithParents, deref. rewrite Hself. simpl.
  rewrite sort_byLenHandlerChain_valid by (intros p Hp; by eapply Hval).
  simpl. set (sorted := go_sort (chain_len s) (ParentHandlers fh)).
  assert (sorted ≡ₚ ParentHandlers fh) as Hperm by apply go_sort_perm.
  set (s1 := <[self := with_parents fh sorted]> s).
  assert (store_evolves s s1) as Hev1.
  { eapply store_evolves_insert; [done|]. by split. }
  destruct (merge_loop_spec self sorted s1)
    as [[-> (p & Hin & Hdis)] | (s' & -> & Hev & Hnd)].
  - destruct (proj2 Hev1 self fh Hself) as (c' & -> & _). done.
  - intros p Hp. rewrite (proj1 Hev1). eapply Hval; [done|]. by rewrite <- Hperm.
  - left. split; [done|]. exists p. split; [by rewrite <- Hperm|].
    by apply (store_evolves_disjoint_in s s1).
  - right. exists s'. split; [done|]. split; [by eapply store_evolves_trans|].
    intros p Hp Hdis. apply (Hnd p); [by rewrite Hperm|].
    by apply (store_evolves_disjoint_in s s1).
Qed.

End MergeWithParents.

Lemma MergeWithParents_keeps_child_chain_witness :
  @MergeWithParents stable_runtime 0 store_long_child =
    Done [ {| HandlerChain := [a_to_b; b_to_c]; FileSet := [0]; ParentHandlers := [1];
              File := Some "child.a" |};
           {| HandlerChain :=
                [a_to_b; ConcatenationHandler 1 0 ConcatenationModeAppend "b"];
              FileSet := [1; 0]; ParentHandlers := []; File := Some "parent.a" |} ] ∧
  removeIncompatibleHandlers [a_to_b; b_to_c] [a_to_b] = ([], Done 0) ∧
  HandlerChain <$>
    [ {| HandlerChain := [a_to_b; b_to_c]; FileSet := [0]; ParentHandlers := [1];
         File := Some "child.a" |};
      {| HandlerChain := [a_to_b; ConcatenationHandler 1 0 ConcatenationModeAppend "b"];
         FileSet := [1; 0]; ParentHandlers := []; File := Some "parent.a" |} ] !! 0
    = Some [a_to_b; b_to_c].
Proof.
  split; [reflexivity|]. split; [reflexivity|].
  apply (@MergeWithParents_keeps_child_chain stable_runtime 0 store_long_child _
           {| HandlerChain := [a_to_b; b_to_c]; FileSet := [0]; ParentHandlers := [1];
              File := Some "child.a" |}).
  - reflexivity.
  - simpl. intros Hin. apply list_elem_of_In in Hin. simpl in Hin. lia.
  - reflexivity.
Defined.

(** C6, as stated, fails at the position it calls equal: a handler that
    holds itself in its file set and is made its own parent, with the
    exported [AddFileHandler] and [AddParentFileHandler], is concatenated
    into itself by [MergeWithParents] in Prepend mode, where the claim says
    Append. *)
Lemma self_concatenation_is_prepend :
  ∃ s1 s2 s3 x,
    AddFileHandler 0 0 store_alone = Done s1 ∧
    AddParentFileHandler 0 0 s1 = Done s2 ∧
    @MergeWithParents stable_runtime 0 s2 = Done s3 ∧
    concatenateAtIndex 0 0 0 s2 = Done s3 ∧
    s3 !! 0 = Some x ∧ FileSet x = [0] ∧ ParentHandlers x = [0] ∧
    HandlerChain x =
      [a_to_b; ConcatenationHandler 0 0 ConcatenationModePrepend "b"].
Proof.
  eexists _, _, _, _. split; [vm_compute; reflexivity|].
  split; [vm_compute; reflexivity|]. split; [vm_compute; reflexivity|].
  split; [vm_compute; reflexivity|]. split; [vm_compute; reflexivity|].
  split; [reflexivity|]. split; reflexivity.
Qed.

(** *** More on the steps of a merge *)

Lemma insert_after_beyond handler index : ∀ chain i,
  i + length chain ≤ index → insert_after i chain handler index = chain.
Proof.
  induction chain as [|h chain IH]; intros i Hle; simpl in *; [done|].
  destruct (Nat.eqb_spec i index); [lia|]. rewrite IH by lia. done.
Qed.

(** X11.  [addHandlerAfterIndex] puts the handler right after position
    [index] when the chain has such a position, and leaves the chain as it
    is when [index] is past its end; nothing else in the store changes. *)
Theorem addHandlerAfterIndex_effect self handler index (s : store) fh :
  s !! self = Some fh →
  addHandlerAfterIndex self handler index s =
    Done (<[self := with_chain fh
              (if decide (index < length (HandlerChain fh))
               then take (S index) (HandlerChain fh) ++
                    handler :: drop (S index) (HandlerChain fh)
               else HandlerChain fh)]> s).
Proof.
  intros Hself. unfold addHandlerAfterIndex, deref. rewrite Hself. simpl.
  do 3 f_equal. destruct (decide _) as [Hlt|Hge].
  - rewrite insert_after_spec; rewrite ?Nat.sub_0_r; [done|lia|done].
  - apply insert_after_beyond. simpl. lia.
Qed.

Lemma addHandlerAfterIndex_effect_witness :
  addHandlerAfterIndex 0 (DefaultHandler "x") 0 store_long_child =
    Done (<[0 := with_chain
                   {| HandlerChain := [a_to_b; b_to_c]; FileSet := [0];
                      ParentHandlers := [1]; File := Some "child.a" |}
                   [a_to_b; DefaultHandler "x"; b_to_c]]> store_long_child) ∧
  addHandlerAfterIndex 0 (DefaultHandler "x") 2 store_long_child =
    Done (<[0 := with_chain
                   {| HandlerChain := [a_to_b; b_to_c]; FileSet := [0];
                      ParentHandlers := [1]; File := Some "child.a" |}
                   [a_to_b; b_to_c]]> store_long_child).
Proof.
  split.
  - apply (addHandlerAfterIndex_effect 0 (DefaultHandler "x") 0 store_long_child
             {| HandlerChain := [a_to_b; b_to_c]; FileSet := [0];
                ParentHandlers := [1]; File := Some "child.a" |}).
    reflexivity.
  - apply (addHandlerAfterIndex_effect 0 (DefaultHandler "x") 2 store_long_child
             {| HandlerChain := [a_to_b; b_to_c]; FileSet := [0];
                ParentHandlers := [1]; File := Some "child.a" |}).
    reflexivity.
Defined.

Lemma scan_b_Some_last ai b : ∀ j1 j,
  scan_b ai b j1 = Some j →
  ∀ j' y, j < j' → j' < j1 → b !! j' = Some y → OutputExt ai ≠ OutputExt y.
Proof.
  induction j1 as [|j1 IH]; intros j; simpl; [done|].
  destruct (b !! j1) as [bj|] eqn:Hbj; [|done].
  destruct (String.eqb_spec (OutputExt ai) (OutputExt bj)) as [Heq|Hne].
  - intros [= <-] j' y ? ?. lia.
  - intros Hrec j' y Hlt Hlt' Hy.
    destruct (decide (j' = j1)) as [->|Hj]; [congruence|].
    eapply (IH j Hrec j'); [done|lia|done].
Qed.

Lemma scan_a_Some_last a b : ∀ i1 i j,
  i1 ≤ length a → scan_a a b i1 = Some (i, j) →
  (∀ i' x y, i < i' → i' < i1 → a !! i' = Some x → y ∈ b → OutputExt x ≠ OutputExt y) ∧
  (∀ ai j' y, a !! i = Some ai → j < j' → b !! j' = Some y →
     OutputExt ai ≠ OutputExt y).
Proof.
  induction i1 as [|i1 IH]; intros i j Hlen; simpl; [done|].
  destruct (a !! i1) as [ai1|] eqn:Hai1; [|done].
  destruct (scan_b ai1 b (length b)) as [j0|] eqn:Hscan.
  - intros [= <- <-]. split; [intros; lia|].
    intros ai j' y Hai Hlt Hy. assert (ai = ai1) as -> by congruence.
    eapply scan_b_Some_last; [done..| |done]. by eapply lookup_lt_Some.
  - intros Hrec. destruct (IH i j ltac:(lia) Hrec) as [Hup Hright]. split; [|done].
    intros i' x y Hlt Hlt' Hx Hy.
    destruct (decide (i' = i1)) as [->|Hne]; [|eapply Hup; [done|lia|done..]].
    assert (x = ai1) as -> by congruence.
    apply list_elem_of_lookup in Hy as [j' Hj'].
    eapply scan_b_None; [|done| |done]; [lia|by eapply lookup_lt_Some].
Qed.

(** X12.  [removeIncompatibleHandlers] fails exactly when no step of [a] has
    the output extension of a step of [b].  Otherwise the index it returns
    is that of the last step of [b] that matches the last step of [a] with
    any match in [b]. *)
Theorem removeIncompatibleHandlers_last_match a b :
  (disjoint_exts a b ↔ (removeIncompatibleHandlers a b).2 = Failed incompatible) ∧
  ∀ j, (removeIncompatibleHandlers a b).2 = Done j →
    ∃ i ai bj,
      a !! i = Some ai ∧ b !! j = Some bj ∧ OutputExt ai = OutputExt bj ∧
      (∀ i' x y, i < i' → a !! i' = Some x → y ∈ b → OutputExt x ≠ OutputExt y) ∧
      (∀ j' y, j < j' → b !! j' = Some y → OutputExt ai ≠ OutputExt y).
Proof.
  split.
  - split; [by intros ->%removeIncompatibleHandlers_disjoint|].
    destruct (removeIncompatibleHandlers_cases a b)
      as [[? _]|(i & j & ai & bj & -> & _)]; done.
  - intros j. unfold removeIncompatibleHandlers.
    destruct (scan_a a b (length a)) as [[i j0]|] eqn:Hscan; [|done].
    simpl. intros [= ->].
    destruct (scan_a_Some a b _ _ _ Hscan) as (_ & ai & bj & Hai & Hbj & Heq).
    destruct (scan_a_Some_last a b _ _ _ (le_n _) Hscan) as [Hup Hright].
    exists i, ai, bj. split; [done|]. split; [done|]. split; [done|]. split.
    + intros i' x y Hlt Hx Hy. eapply Hup; [done| |done..]. by eapply lookup_lt_Some.
    + intros j' y Hlt Hy. by eapply Hright.
Qed.

Section MergeEffect.
Context `{GoRuntime}.

Lemma concatenateAtIndex_Done_inv parent child index (s s' : store) :
  concatenateAtIndex parent child index s = Done s' →
  ∃ p h, s !! parent = Some p ∧ HandlerChain p !! index = Some h ∧
         concatenateAtIndex parent child index s =
           Done (<[parent := with_chain p
                     (take (S index) (HandlerChain p) ++
                      ConcatenationHandler parent child
                        (concatenationMode (FileSet p) parent child) (OutputExt h)
                      :: drop (S index) (HandlerChain p))]> s).
Proof.
  intros Hdone. destruct (s !! parent) as [p|] eqn:Hp.
  2: { unfold concatenateAtIndex, deref in Hdone. by rewrite Hp in Hdone. }
  destruct (HandlerChain p !! index) as [h|] eqn:Hh.
  2: { unfold concatenateAtIndex, deref in Hdone. rewrite Hp in Hdone. simpl in Hdone.
       by rewrite Hh in Hdone. }
  exists p, h. split; [done|]. split; [done|]. by apply concatenateAtIndex_Done.
Qed.

Lemma occurrences_cons q x l :
  occurrences q (x :: l) = (if decide (x = q) then 1 else 0) + occurrences q l.
Proof.
  unfold occurrences. rewrite filter_cons. by destruct (decide (x = q)).
Qed.

(** What the loop of [MergeWithParents] leaves of every handler. *)
Lemma merge_loop_effect self : ∀ parents (s s' : store),
  merge_loop self parents s = Done s' →
  length s' = length s ∧
  ∀ q f, s !! q = Some f →
    ∃ f', s' !! q = Some f' ∧ evolves f f' ∧
          ParentHandlers f' = ParentHandlers f ∧
          length (HandlerChain f') = length (HandlerChain f) + occurrences q parents.
Proof.
  induction parents as [|parent rest IH]; intros s s'; simpl.
  { intros [= <-]. split; [done|]. intros q f Hq. exists f.
    split; [done|]. split; [apply evolves_refl|]. split; [done|].
    unfold occurrences. simpl. lia. }
  unfold deref. destruct (s !! self) as [c|] eqn:Hc; [|done]. simpl.
  destruct (s !! parent) as [p|] eqn:Hp; [|done]. simpl.
  destruct (removeIncompatibleHandlers _ _) as [a' [index|err|w]]; [|done..].
  destruct (concatenateAtIndex parent self index s) as [s1| |] eqn:Hcat; [|done..].
  simpl. intros Hloop.
  destruct (concatenateAtIndex_Done_inv _ _ _ _ _ Hcat) as (p' & h & Hp' & Hh & Hs1).
  assert (p' = p) as -> by congruence.
  rewrite Hcat in Hs1. injection Hs1 as ->.
  destruct (IH _ _ Hloop) as [Hlen Hrest].
  split; [by rewrite Hlen, length_insert|].
  intros q f Hq. rewrite occurrences_cons. destruct (decide (parent = q)) as [->|Hne].
  - destruct (Hrest q _ (list_lookup_insert_eq _ _ _ (lookup_lt_Some _ _ _ Hq)))
      as (f' & Hf' & Evo & Hps & Hcount).
    assert (f = p) as -> by congruence.
    exists f'. split; [done|]. split.
    { eapply evolves_trans; [|done]. by apply (insert_evolves p index h). }
    split; [done|]. rewrite Hcount. simpl.
    rewrite length_app. simpl. rewrite length_take, length_drop.
    pose proof (lookup_lt_Some _ _ _ Hh). lia.
  - rewrite <- (list_lookup_insert_ne s parent q
                  (with_chain p (take (S index) (HandlerChain p) ++
                     ConcatenationHandler parent self
                       (concatenationMode (FileSet p) parent self) (OutputExt h)
                     :: drop (S index) (HandlerChain p)))) in Hq by done.
    destruct (Hrest q f Hq) as (f' & Hf' & Evo & Hps & Hcount).
    exists f'. by rewrite Hcount.
Qed.

(** X13.  What a merge that succeeds changes: every handler keeps its file
    set and its file, and its parents up to order; the chain of a handler
    grows by one step for every time the handler stands among the parents of
    the child, and all other chains are as they were. *)
Theorem MergeWithParents_effect self (s s' : store) fh :
  s !! self = Some fh → MergeWithParents self s = Done s' →
  length s' = length s ∧
  ∀ q f, s !! q = Some f →
    ∃ f', s' !! q = Some f' ∧
          FileSet f' = FileSet f ∧ File f' = File f ∧
          ParentHandlers f' ≡ₚ ParentHandlers f ∧
          length (HandlerChain f') =
            length (HandlerChain f) + occurrences q (ParentHandlers fh) ∧
          (q ∉ ParentHandlers fh → HandlerChain f' = HandlerChain f).
Proof.
  intros Hself. unfold MergeWithParents, deref. rewrite Hself. simpl.
  destruct (sort_byLenHandlerChain s (ParentHandlers fh)) as [sorted| |] eqn:Hsort;
    [|done..].
  simpl. intros Hloop. pose proof (sort_byLenHandlerChain_Done _ _ _ Hsort) as Hperm.
  destruct (merge_loop_effect _ _ _ _ Hloop) as [Hlen Heffect].
  rewrite length_insert in Hlen. split; [done|].
  assert (∀ q, occurrences q sorted = occurrences q (ParentHandlers fh)) as Hocc.
  { intros q. unfold occurrences. by rewrite Hperm. }
  intros q f Hq. destruct (decide (q = self)) as [->|Hne].
  - assert (f = fh) as -> by congruence.
    destruct (Heffect self (with_parents fh sorted)) as (f' & Hf' & Evo & Hps & Hcount).
    { apply list_lookup_insert_eq. by eapply lookup_lt_Some. }
    exists f'. split; [done|]. split; [apply (ev_fileSet _ _ Evo)|].
    split; [apply (ev_file _ _ Evo)|]. split; [by rewrite Hps|].
    split; [by rewrite Hcount, Hocc|].
    intros Hnot. rewrite (merge_loop_frame _ _ _ _ self Hloop) in Hf' by (by rewrite Hperm).
    rewrite list_lookup_insert_eq in Hf' by (by eapply lookup_lt_Some).
    by injection Hf' as <-.
  - destruct (Heffect q f) as (f' & Hf' & Evo & Hps & Hcount).
    { by rewrite list_lookup_insert_ne. }
    exists f'. split; [done|]. split; [apply (ev_fileSet _ _ Evo)|].
    split; [apply (ev_file _ _ Evo)|]. split; [by rewrite Hps|].
    split; [by rewrite Hcount, Hocc|].
    intros Hnot. rewrite (merge_loop_frame _ _ _ _ q Hloop) in Hf' by (by rewrite Hperm).
    rewrite list_lookup_insert_ne in Hf' by done. congruence.
Qed.

End MergeEffect.

Lemma MergeWithParents_effect_witness :
  ∃ s' f',
    @MergeWithParents stable_runtime 0 store_named_twice = Done s' ∧
    s' !! 1 = Some f' ∧ length (HandlerChain f') = 3.
Proof.
  assert (∃ s', @MergeWithParents stable_runtime 0 store_named_twice = Done s')
    as [s' Hrun].
  { eexists. vm_compute. reflexivity. }
  destruct (@MergeWithParents_effect stable_runtime 0 store_named_twice s'
              {| HandlerChain := [a_to_b]; FileSet := [0]; ParentHandlers := [1; 1];
                 File := Some "child.a" |} eq_refl Hrun) as [_ Heffect].
  destruct (Heffect 1 {| HandlerChain := [a_to_b]; FileSet := [0; 0; 1];
                         ParentHandlers := []; File := Some "parent.a" |} eq_refl)
    as (f' & Hf' & _ & _ & _ & Hcount & _).
  exists s', f'. split; [done|]. split; [done|]. rewrite Hcount. reflexivity.
Defined.

End MergeFacts.

(** ** Orchestrator *)

Module OrchestratorFacts.
Import Merge Orchestrator Examples MergeFacts.

(** *** [AddFileHandler] *)

(** What [AddFileHandler] does to every handler of the store. *)
Lemma AddFileHandler_lookup self fh (s s' : store) :
  AddFileHandler self fh s = Done s' →
  self < length s ∧ fh < length s ∧ length s' = length s ∧
  ∀ q f, s !! q = Some f →
    s' !! q = Some
      {| HandlerChain := HandlerChain f;
         FileSet := FileSet f ++ (if decide (q = self) then [fh] else []);
         ParentHandlers :=
           ParentHandlers f ++ (if decide (q = fh ∧ fh ≠ self) then [self] else []);
         File := File f |}.
Proof.
  unfold AddFileHandler, AddParentFileHandler, deref.
  destruct (decide (fh = self)) as [->|Hne].
  - rewrite bool_decide_eq_false_2 by (intros Hne; by apply Hne). simpl.
    destruct (s !! self) as [y|] eqn:Hy; [|done]. simpl. intros [= <-].
    pose proof (lookup_lt_Some _ _ _ Hy) as Hlt.
    split; [done|]. split; [done|]. split; [by rewrite length_insert|].
    intros q f Hq. rewrite (decide_False (P := q = self ∧ self ≠ self)) by tauto.
    rewrite app_nil_r. destruct (decide (q = self)) as [->|Hq'].
    + rewrite list_lookup_insert_eq by done. by simplify_eq.
    + rewrite list_lookup_insert_ne by done. rewrite app_nil_r. by destruct f.
  - rewrite bool_decide_eq_true_2 by done.
    destruct (s !! fh) as [x|] eqn:Hx; [|done]. simpl.
    rewrite list_lookup_insert_ne by done.
    destruct (s !! self) as [y|] eqn:Hy; [|done]. simpl. intros [= <-].
    pose proof (lookup_lt_Some _ _ _ Hx) as Hltx.
    pose proof (lookup_lt_Some _ _ _ Hy) as Hlty.
    split; [done|]. split; [done|]. split; [by rewrite !length_insert|].
    intros q f Hq. destruct (decide (q = self)) as [->|Hqs].
    + rewrite list_lookup_insert_eq by (by rewrite length_insert).
      rewrite (decide_False (P := self = fh ∧ fh ≠ self)) by (intros [? ?]; congruence).
      rewrite app_nil_r. by simplify_eq.
    + rewrite list_lookup_insert_ne by done. rewrite app_nil_r.
      destruct (decide (q = fh)) as [->|Hqf].
      * rewrite list_lookup_insert_eq by done.
        rewrite (decide_True (P := fh = fh ∧ fh ≠ self)) by done. by simplify_eq.
      * rewrite list_lookup_insert_ne by done.
        rewrite (decide_False (P := q = fh ∧ fh ≠ self)) by tauto.
        rewrite app_nil_r. by destruct f.
Qed.

Lemma extends_refl s : extends s s.
Proof. split; [done|]. intros q f Hq. by exists f. Qed.

Lemma extends_trans s1 s2 s3 : extends s1 s2 → extends s2 s3 → extends s1 s3.
Proof.
  intros [L12 H12] [L23 H23]. split; [congruence|].
  intros q f Hq. destruct (H12 q f Hq) as (g & Hg & Cg & Sg).
  destruct (H23 q g Hg) as (h & Hh & Ch & Sh).
  exists h. split; [done|]. split; [congruence|]. auto.
Qed.

Lemma AddFileHandler_extends self fh (s s' : store) :
  AddFileHandler self fh s = Done s' → extends s s'.
Proof.
  intros (_ & _ & Hlen & Hlook)%AddFileHandler_lookup. split; [done|].
  intros q f Hq. eexists. split; [by apply Hlook|]. split; [done|].
  simpl. intros k Hk. apply elem_of_app. by left.
Qed.

Lemma AddFileHandler_parents_valid self fh (s s' : store) :
  AddFileHandler self fh s = Done s' → parents_valid s → parents_valid s'.
Proof.
  intros (Hself & _ & Hlen & Hlook)%AddFileHandler_lookup Hval q f' p Hq Hp.
  destruct (lookup_lt_is_Some_2 s q) as [f Hf].
  { rewrite <- Hlen. by eapply lookup_lt_Some. }
  rewrite (Hlook q f Hf) in Hq. injection Hq as <-. simpl in Hp. rewrite Hlen.
  apply elem_of_app in Hp as [Hp|Hp]; [by eapply Hval|].
  destruct (decide _); [|by apply elem_of_nil in Hp].
  apply list_elem_of_singleton in Hp as ->. done.
Qed.

(** Only a handler named by another one gets a parent. *)
Lemma AddFileHandler_parents_frame self fh k (s s' : store) :
  AddFileHandler self fh s = Done s' → (fh = k → k = self) →
  ParentHandlers <$> s' !! k = ParentHandlers <$> s !! k.
Proof.
  intros (_ & _ & Hlen & Hlook)%AddFileHandler_lookup Hk.
  destruct (s !! k) as [f|] eqn:Hf.
  - rewrite (Hlook k f Hf). simpl.
    rewrite decide_False; [by rewrite app_nil_r|].
    intros [-> Hne]. apply Hne. by apply Hk.
  - apply lookup_ge_None in Hf. rewrite lookup_ge_None_2; [done|lia].
Qed.

(** The guard [fh != fileHandler]: no call makes a handler its own parent,
    so the child and the parent of a concatenation differ. *)
Lemma AddFileHandler_no_self_parent self fh (s s' : store) :
  AddFileHandler self fh s = Done s' → no_self_parent s → no_self_parent s'.
Proof.
  intros (_ & _ & Hlen & Hlook)%AddFileHandler_lookup Hno q f' Hq Hin.
  destruct (lookup_lt_is_Some_2 s q) as [f Hf].
  { rewrite <- Hlen. by eapply lookup_lt_Some. }
  rewrite (Hlook q f Hf) in Hq. injection Hq as <-. simpl in Hin.
  apply elem_of_app in Hin as [Hin|Hin]; [by eapply Hno|].
  destruct (decide _) as [[-> Hne]|]; [|by apply elem_of_nil in Hin].
  apply list_elem_of_singleton in Hin. congruence.
Qed.

Lemma AddFileHandler_added self fh (s s' : store) :
  AddFileHandler self fh s = Done s' →
  ∃ x, s' !! self = Some x ∧ fh ∈ FileSet x.
Proof.
  intros (Hself & _ & Hlen & Hlook)%AddFileHandler_lookup.
  destruct (lookup_lt_is_Some_2 s self Hself) as [f Hf].
  eexists. split; [by apply Hlook|]. simpl.
  rewrite decide_True by done. apply elem_of_app. right. by left.
Qed.

(** *** The parent lists mirror the file sets *)

Lemma mirrored_unlinked (s : store) :
  (∀ q f, s !! q = Some f → FileSet f = [] ∧ ParentHandlers f = []) → mirrored s.
Proof.
  intros Hun p c fp fc Hp Hc.
  destruct (Hun p fp Hp) as [-> _]. destruct (Hun c fc Hc) as [_ ->].
  split; [by intros ?%elem_of_nil|]. by intros [?%elem_of_nil _].
Qed.

Lemma AddFileHandler_preserves_mirrored self fh (s s' : store) :
  AddFileHandler self fh s = Done s' → mirrored s → mirrored s'.
Proof.
  intros (_ & _ & Hlen & Hlook)%AddFileHandler_lookup Hmir p c fp' fc' Hp Hc.
  destruct (lookup_lt_is_Some_2 s p) as [fp Hfp].
  { rewrite <- Hlen. by eapply lookup_lt_Some. }
  destruct (lookup_lt_is_Some_2 s c) as [fc Hfc].
  { rewrite <- Hlen. by eapply lookup_lt_Some. }
  rewrite (Hlook p fp Hfp) in Hp. rewrite (Hlook c fc Hfc) in Hc.
  injection Hp as <-. injection Hc as <-. simpl.
  rewrite !elem_of_app, (Hmir p c fp fc Hfp Hfc).
  destruct (decide (p = self)) as [Hps|Hps];
    destruct (decide (c = fh ∧ fh ≠ self)) as [[Hcf Hne]|Hnot];
    rewrite ?list_elem_of_singleton, ?elem_of_nil;
    destruct (decide (c = fh)) as [Hcf'|Hcf']; destruct (decide (fh = self)) as [Hfs|Hfs];
    intuition congruence.
Qed.

(** X14.  [AddFileHandler] keeps the two lists in step: a store in which the
    parents of every handler are exactly the other handlers that have it in
    their file set is still such a store afterwards. *)
Theorem AddFileHandler_mirrored self fh (s s' : store) :
  AddFileHandler self fh s = Done s' → mirrored s → mirrored s'.
Proof. apply AddFileHandler_preserves_mirrored. Qed.

Lemma AddFileHandler_mirrored_witness :
  ∃ s', AddFileHandler 1 0 store_unlinked = Done s' ∧ mirrored s' ∧
        FileSet <$> s' !! 1 = Some [0] ∧ ParentHandlers <$> s' !! 0 = Some [1].
Proof.
  eexists. split; [reflexivity|]. split; [|split; reflexivity].
  apply (AddFileHandler_mirrored 1 0 store_unlinked); [reflexivity|].
  apply mirrored_unlinked. intros q f Hq.
  destruct q as [|[|q]]; simpl in Hq; [by injection Hq as <-..|done].
Defined.

Lemma mirrored_evolves s s' : store_evolves s s' → mirrored s → mirrored s'.
Proof.
  intros Hev Hmir p c fp' fc' Hp Hc.
  destruct (store_evolves_inv _ _ _ _ Hev Hp) as (fp & Hfp & Ep).
  destruct (store_evolves_inv _ _ _ _ Hev Hc) as (fc & Hfc & Ec).
  rewrite (ev_parents _ _ Ec), (ev_fileSet _ _ Ep). by apply Hmir.
Qed.

(** *** The linking loops *)

Lemma add_directive_files_spec fhOf self k : ∀ named b (s : store) b' s',
  add_directive_files fhOf self named b s = Done (b', s') →
  extends s s' ∧ (parents_valid s → parents_valid s') ∧
  ((∀ t, t ∈ named → fhOf !! t = Some k → k = self) →
     ParentHandlers <$> s' !! k = ParentHandlers <$> s !! k) ∧
  (b' = true → b = true ∨ ∃ x, s' !! self = Some x ∧ self ∈ FileSet x).
Proof.
  induction named as [|t rest IH]; intros b s b' s'; simpl.
  { intros [= <- <-]. split; [apply extends_refl|]. split; [done|]. split; [done|]. auto. }
  destruct (fhOf !! t) as [kt|] eqn:Ht; [|done].
  destruct (AddFileHandler self kt s) as [s1| |] eqn:Hadd; [|done..]. simpl.
  intros Hrec. apply IH in Hrec as (Hext & Hval & Hpar & Hsa).
  split; [eapply extends_trans; [by eapply AddFileHandler_extends|done]|].
  split; [intros ?; apply Hval; by eapply AddFileHandler_parents_valid|].
  split.
  - intros Hnamed.
    rewrite Hpar by (intros t' ? ?; apply (Hnamed t'); [by right|done]).
    eapply AddFileHandler_parents_frame; [done|].
    intros ->. apply (Hnamed t); [by left|done].
  - intros Hb'. destruct (Hsa Hb') as [Hor | Hx]; [|by right].
    apply orb_true_iff in Hor as [?|Hdec]; [by left|]. right.
    apply bool_decide_eq_true_1 in Hdec as ->.
    destruct (AddFileHandler_added _ _ _ _ Hadd) as (x & Hx & Hin).
    destruct (proj2 Hext self x Hx) as (x' & Hx' & _ & Hmono). exists x'. auto.
Qed.

(** The self-inclusion a file gets when no directive named it. *)
Lemma add_self_spec self (selfAdded : bool) (s1 s2 : store) k :
  (if selfAdded then Done s1 else AddFileHandler self self s1) = Done s2 →
  extends s1 s2 ∧ (parents_valid s1 → parents_valid s2) ∧
  ParentHandlers <$> s2 !! k = ParentHandlers <$> s1 !! k ∧
  (selfAdded = false → ∃ x, s2 !! self = Some x ∧ self ∈ FileSet x).
Proof.
  destruct selfAdded.
  - intros [= <-]. split; [apply extends_refl|]. done.
  - intros Hadd. split; [by eapply AddFileHandler_extends|].
    split; [by eapply AddFileHandler_parents_valid|].
    split; [eapply AddFileHandler_parents_frame; [done|by intros <-]|].
    intros _. by eapply AddFileHandler_added.
Qed.

Lemma link_files_spec fhOf k : ∀ fl (s s' : store),
  link_files fhOf fl s = Done s' →
  extends s s' ∧ (parents_valid s → parents_valid s') ∧
  ((∀ q g self t, (q, g) ∈ fl → fhOf !! q = Some self →
      t ∈ concat (Directives g) → fhOf !! t = Some k → k = self) →
     ParentHandlers <$> s' !! k = ParentHandlers <$> s !! k) ∧
  (∀ q g, (q, g) ∈ fl → fhOf !! q = Some k →
     ∃ x, s' !! k = Some x ∧ k ∈ FileSet x).
Proof.
  induction fl as [|[path file] rest IH]; intros s s'; simpl.
  { intros [= <-]. split; [apply extends_refl|]. split; [done|]. split; [done|].
    intros q g Hin. by apply elem_of_nil in Hin. }
  destruct (fhOf !! path) as [self|] eqn:Hself; [|done].
  destruct (add_directive_files fhOf self (concat (Directives file)) false s)
    as [[selfAdded s1]| |] eqn:Hnamed; [|done..].
  destruct (if selfAdded then Done s1 else AddFileHandler self self s1)
    as [s2| |] eqn:Hadd; [|done..].
  simpl. intros Hrest.
  apply (add_directive_files_spec fhOf self k) in Hnamed as (E1 & V1 & P1 & A1).
  apply (add_self_spec self selfAdded s1 s2 k) in Hadd as (E2 & V2 & P2 & A2).
  apply IH in Hrest as (E3 & V3 & P3 & A3).
  split; [eauto using extends_trans|]. split; [auto|]. split.
  - intros Hcond. rewrite P3, P2, P1; [done| |].
    + intros t Ht Hk. by apply (Hcond path file self t); [left|..].
    + intros q g self' t Hin. apply (Hcond q g self' t). by right.
  - intros q g [[= -> ->]|Hin]%elem_of_cons Hq; [|by eapply A3].
    assert (self = k) as -> by congruence.
    assert (∃ x, s2 !! k = Some x ∧ k ∈ FileSet x) as (x & Hx & Hin).
    { destruct selfAdded; [|by apply A2].
      destruct (A1 eq_refl) as [?|(x & Hx & Hin)]; [done|].
      destruct (proj2 E2 k x Hx) as (x' & Hx' & _ & Hmono). exists x'. auto. }
    destruct (proj2 E3 k x Hx) as (x' & Hx' & _ & Hmono). exists x'. auto.
Qed.

(** *** The first loop *)

Section Configure.
Context `{GoRuntime}.
Variable reg : Registry.t.

Lemma NewFileHandler_unlinked fuel inExt fh :
  NewFileHandler reg fuel inExt = Some (Done fh) →
  FileSet fh = [] ∧ ParentHandlers fh = [].
Proof.
  unfold NewFileHandler.
  destruct (buildHandlerChain reg fuel inExt []) as [[chain| |]|]; [|done..].
  by intros [= <-].
Qed.

Lemma build_chains_fresh fuel : ∀ fl m m',
  fresh m → build_chains reg fuel fl m = Some (Done m') →
  fresh m' ∧ FilePathMapping m' = FilePathMapping m ∧
  ∀ path, path ∈ fl.*1 ∨ is_Some (FileHandlerOf m !! path) →
          is_Some (FileHandlerOf m' !! path).
Proof.
  induction fl as [|[path file] rest IH]; intros m m' Hfresh; simpl.
  { intros [= <-]. split; [done|]. split; [done|].
    intros p [Hin|?]; [by apply elem_of_nil in Hin|done]. }
  destruct (NewFileHandler reg fuel (Ext file)) as [[fh| |]|] eqn:Hnew; [|done..].
  apply NewFileHandler_unlinked in Hnew as [Hfs Hps].
  intros Hrest. apply IH in Hrest as (Hfresh' & Hmap & Hdom).
  - split; [done|]. split; [done|]. intros p Hp. apply Hdom. simpl.
    destruct (decide (p = path)) as [->|Hne].
    + right. by rewrite lookup_insert_eq.
    + rewrite lookup_insert_ne by done. destruct Hp as [Hp|?]; [|by right].
      apply elem_of_cons in Hp as [?|?]; [done|by left].
  - destruct Hfresh as (Hseq & Hunlinked & Hbound & Hinj).
    split; [|split; [|split]]; simpl.
    + rewrite length_app, Hseq. simpl. rewrite Nat.add_1_r. by rewrite seq_S.
    + intros q f Hq. apply lookup_app_Some in Hq as [Hq|[_ Hq]]; [by eapply Hunlinked|].
      apply list_lookup_singleton_Some in Hq as [_ <-]. done.
    + intros p k. rewrite length_app. simpl.
      destruct (decide (p = path)) as [->|Hne].
      * rewrite lookup_insert_eq. intros [= <-]. lia.
      * rewrite lookup_insert_ne by done. intros Hk%Hbound. lia.
    + intros p1 p2 k.
      destruct (decide (p1 = path)) as [->|Hne1], (decide (p2 = path)) as [->|Hne2];
        rewrite ?lookup_insert_eq, ?lookup_insert_ne by done; try done.
      * intros [= <-] Hk%Hbound. lia.
      * intros Hk%Hbound [= <-]. lia.
      * apply Hinj.
Qed.

(** *** The merging loop *)

Lemma merge_all_spec : ∀ fhs (s : store),
  parents_valid s → (∀ fh, fh ∈ fhs → fh < length s) →
  (merge_all fhs s = Failed incompatible ∧
   ∃ c fc p, c ∈ fhs ∧ s !! c = Some fc ∧ p ∈ ParentHandlers fc ∧ disjoint_in s c p) ∨
  (∃ s', merge_all fhs s = Done s' ∧ store_evolves s s' ∧
         ∀ c fc p, c ∈ fhs → s !! c = Some fc → p ∈ ParentHandlers fc →
                   ¬ disjoint_in s c p).
Proof.
  induction fhs as [|fh rest IH]; intros s Hval Hin.
  { right. exists s. split; [done|]. split; [apply store_evolves_refl|].
    intros c fc p Hc. by apply elem_of_nil in Hc. }
  destruct (lookup_lt_is_Some_2 s fh) as [f Hf]; [apply Hin; by left|].
  simpl.
  destruct (MergeWithParents_spec fh s f Hval Hf)
    as [[-> (p & Hp & Hdis)] | (s1 & -> & Hev1 & Hnd1)]; simpl.
  { left. split; [done|]. exists fh, f, p. split; [by left|]. done. }
  destruct (IH s1) as [[-> (c & fc & p & Hc & Hfc & Hp & Hdis)] | (s' & -> & Hev & Hnd)].
  - by eapply parents_valid_evolves.
  - intros fh' Hfh'. rewrite (proj1 Hev1). apply Hin. by right.
  - left. split; [done|].
    destruct (store_evolves_inv _ _ _ _ Hev1 Hfc) as (fc0 & Hfc0 & Evo).
    exists c, fc0, p. split; [by right|]. split; [done|].
    split; [by rewrite <- (ev_parents _ _ Evo)|].
    by apply (store_evolves_disjoint_in s s1).
  - right. exists s'. split; [done|]. split; [by eapply store_evolves_trans|].
    intros c fc p [->|Hc]%elem_of_cons Hfc Hp.
    + assert (fc = f) as -> by congruence. by apply Hnd1.
    + intros Hdis. destruct (proj2 Hev1 c fc Hfc) as (fc' & Hfc' & Evo).
      apply (Hnd c fc' p Hc Hfc'); [by rewrite (ev_parents _ _ Evo)|].
      by apply (store_evolves_disjoint_in s s1).
Qed.

Lemma fresh_NewManifest files : fresh (NewManifest files).
Proof.
  split; [done|]. split; [|split]; simpl.
  - intros q f Hq. by rewrite lookup_nil in Hq.
  - intros path k Hk. by rewrite lookup_empty in Hk.
  - intros p1 p2 k Hk. by rewrite lookup_empty in Hk.
Qed.

(** The state in which the merging loop starts. *)
Lemma ConfigureHandlers_linked fuel files m1 (s2 : store) :
  build_chains reg fuel (go_range RangeFilesBuild files) (NewManifest files) = Some (Done m1) →
  link_files (FileHandlerOf m1) (go_range RangeFilesLink files) (handlers m1) = Done s2 →
  fresh m1 ∧ FilePathMapping m1 = files ∧ length s2 = length (handlers m1) ∧
  parents_valid s2 ∧
  ∀ fh, fh ∈ sort_byLenParentHandlersReversed s2 (fileHandlers m1) ↔ fh < length s2.
Proof.
  intros Hbuild Hlink.
  apply build_chains_fresh in Hbuild as (Hfresh & Hmap & _); [|apply fresh_NewManifest].
  apply (link_files_spec _ 0) in Hlink as ([Hlen _] & Hval & _ & _).
  split; [done|]. split; [done|]. split; [done|]. split.
  - apply Hval. intros q f p Hq Hp.
    destruct Hfresh as (_ & Hunlinked & _). destruct (Hunlinked q f Hq) as [_ Hnil].
    rewrite Hnil in Hp. by apply elem_of_nil in Hp.
  - intros fh. unfold sort_byLenParentHandlersReversed. rewrite go_sort_perm.
    destruct Hfresh as (-> & _). rewrite elem_of_seq, Hlen. lia.
Qed.

Lemma ConfigureHandlers_unfold fuel files m1 (s2 : store) :
  build_chains reg fuel (go_range RangeFilesBuild files) (NewManifest files) = Some (Done m1) →
  link_files (FileHandlerOf m1) (go_range RangeFilesLink files) (handlers m1) = Done s2 →
  ConfigureHandlers reg fuel (NewManifest files) =
    Some (s3 ← merge_all (sort_byLenParentHandlersReversed s2 (fileHandlers m1)) s2;
          Done {| FilePathMapping := files;
                  fileHandlers := sort_byLenParentHandlersReversed s2 (fileHandlers m1);
                  FileHandlerOf := FileHandlerOf m1; handlers := s3 |}).
Proof.
  intros Hbuild Hlink. unfold ConfigureHandlers, NewManifest in *. simpl.
  rewrite Hbuild.
  apply build_chains_fresh in Hbuild as (_ & Hmap & _); [|apply fresh_NewManifest].
  simpl in Hmap. rewrite Hmap, Hlink. done.
Qed.

(** C5.  When the chains, as built and linked, hold a child and one of its
    parents with no output extension in common, [removeIncompatibleHandlers]
    on the two returns the incompatibility error, [MergeWithParents] on the
    child returns it, and [ConfigureHandlers] returns it: configuration
    yields no manifest to execute or write. *)
Theorem ConfigureHandlers_rejects_incompatible fuel files m1 (s2 : store) c p fc fp :
  build_chains reg fuel (go_range RangeFilesBuild files) (NewManifest files) = Some (Done m1) →
  link_files (FileHandlerOf m1) (go_range RangeFilesLink files) (handlers m1) = Done s2 →
  s2 !! c = Some fc → p ∈ ParentHandlers fc → s2 !! p = Some fp →
  disjoint_exts (HandlerChain fc) (HandlerChain fp) →
  removeIncompatibleHandlers (HandlerChain fc) (HandlerChain fp)
    = (HandlerChain fc, Failed incompatible) ∧
  MergeWithParents c s2 = Failed incompatible ∧
  ConfigureHandlers reg fuel (NewManifest files) = Some (Failed incompatible).
Proof.
  intros Hbuild Hlink Hc Hp Hfp Hdis.
  assert (disjoint_in s2 c p) as Hpair by (by exists fc, fp).
  destruct (ConfigureHandlers_linked _ _ _ _ Hbuild Hlink)
    as (_ & _ & _ & Hval & Hsorted).
  split; [by apply removeIncompatibleHandlers_disjoint|]. split.
  - destruct (MergeWithParents_spec c s2 fc Hval Hc) as [[-> _]|(s' & _ & _ & Hnd)];
      [done|]. by destruct (Hnd p Hp).
  - rewrite (ConfigureHandlers_unfold _ _ _ _ Hbuild Hlink).
    destruct (merge_all_spec (sort_byLenParentHandlersReversed s2 (fileHandlers m1)) s2)
      as [[-> _]|(s' & _ & _ & Hnd)]; [done|by intros fh ?%Hsorted|done|].
    destruct (Hnd c fc p); [|done..]. apply Hsorted. by eapply lookup_lt_Some.
Qed.

(** C10, as amended.  A self-inclusion puts the handler into its own
    FileSet and changes nothing else, so never its ParentHandlers; and when
    configuration succeeds, the handler of a file that no other file's
    directives name has itself in its FileSet, has no parent, and is among
    the handlers [WriteOutput] writes. *)
Theorem self_inclusion_keeps_root :
  (∀ self (s s' : store),
     AddFileHandler self self s = Done s' →
     ∃ x, s !! self = Some x ∧
          s' = <[self := with_fileSet x (FileSet x ++ [self])]> s) ∧
  (∀ fuel files m' path,
     ConfigureHandlers reg fuel (NewManifest files) = Some (Done m') →
     is_Some (files !! path) →
     (∀ q g, files !! q = Some g → q ≠ path → path ∉ concat (Directives g)) →
     ∃ fh x,
       FileHandlerOf m' !! path = Some fh ∧ handlers m' !! fh = Some x ∧
       fh ∈ FileSet x ∧ ParentHandlers x = [] ∧ fh ∈ WriteOutput m').
Proof.
  split.
  { intros self s s'. unfold AddFileHandler, deref.
    rewrite bool_decide_eq_false_2 by (intros Hne; by apply Hne). simpl.
    destruct (s !! self) as [x|]; [|done]. simpl. intros [= <-]. by exists x. }
  intros fuel files m' path Hconf [file Hfile] Hothers.
  destruct (build_chains reg fuel (go_range RangeFilesBuild files) (NewManifest files))
    as [[m1| |]|] eqn:Hbuild;
    [| unfold ConfigureHandlers, NewManifest in *; simpl in *;
       rewrite Hbuild in Hconf; done ..].
  destruct (link_files (FileHandlerOf m1) (go_range RangeFilesLink files) (handlers m1))
    as [s2| |] eqn:Hlink.
  2,3: unfold ConfigureHandlers, NewManifest in *; simpl in *;
       rewrite Hbuild in Hconf;
       pose proof (build_chains_fresh _ _ _ _ (fresh_NewManifest files) Hbuild)
         as (_ & Hmap & _); simpl in Hmap; rewrite Hmap, Hlink in Hconf; done.
  rewrite (ConfigureHandlers_unfold _ _ _ _ Hbuild Hlink) in Hconf.
  destruct (ConfigureHandlers_linked _ _ _ _ Hbuild Hlink)
    as (Hfresh & _ & Hlen & Hval & Hsorted).
  set (sorted := sort_byLenParentHandlersReversed s2 (fileHandlers m1)) in *.
  destruct (merge_all_spec sorted s2) as [[Hfail _]|(s3 & Hmerge & Hev & _)];
    [done | by intros fh ?%Hsorted | by rewrite Hfail in Hconf |].
  rewrite Hmerge in Hconf. simpl in Hconf. injection Hconf as <-. simpl.
  assert (∀ site, (path, file) ∈ go_range site files) as Hin.
  { intros site. rewrite go_range_perm. by apply elem_of_map_to_list. }
  destruct (build_chains_fresh _ _ _ _ (fresh_NewManifest files) Hbuild)
    as (_ & _ & Hdom).
  destruct (Hdom path) as [k Hk].
  { left. apply list_elem_of_fmap. by exists (path, file). }
  destruct Hfresh as (_ & Hunlinked & Hbound & Hinj).
  destruct (link_files_spec _ k _ _ _ Hlink) as (_ & _ & Hparents & Hself).
  destruct (Hself path file (Hin _) Hk) as (x & Hx & Hxin).
  assert (ParentHandlers x = []) as Hroot.
  { assert (ParentHandlers <$> s2 !! k = ParentHandlers <$> handlers m1 !! k) as Heq.
    { apply Hparents. intros q g self t Hq Hqself Ht Htk.
      assert (t = path) as -> by (by eapply Hinj).
      destruct (decide (q = path)) as [->|Hne]; [congruence|].
      exfalso. apply (Hothers q g); [|done..].
      apply elem_of_map_to_list. by rewrite <- go_range_perm. }
    destruct (lookup_lt_is_Some_2 (handlers m1) k (Hbound _ _ Hk)) as [x0 Hx0].
    rewrite Hx, Hx0 in Heq. simpl in Heq. injection Heq as ->.
    by destruct (Hunlinked k x0 Hx0). }
  destruct (proj2 Hev k x Hx) as (x' & Hx' & Evo).
  exists k, x'. split; [done|]. split; [done|].
  split; [by rewrite (ev_fileSet _ _ Evo)|].
  assert (ParentHandlers x' = []) as Hroot'.
  { apply Permutation_nil_r. rewrite <- Hroot. apply (ev_parents _ _ Evo). }
  split; [done|].
  unfold WriteOutput. simpl. apply list_elem_of_filter. split.
  - unfold is_root. by rewrite Hx', Hroot'.
  - apply elem_of_reverse, Hsorted. by eapply lookup_lt_Some.
Qed.

End Configure.

Lemma ConfigureHandlers_rejects_incompatible_witness :
  @ConfigureHandlers stable_runtime Registry.registeredHandlers 1 (NewManifest mixed_files)
    = Some (Failed incompatible).
Proof.
  eapply (@ConfigureHandlers_rejects_incompatible stable_runtime
            Registry.registeredHandlers 1 mixed_files _ _ 0 1).
  - vm_compute. reflexivity.
  - vm_compute. reflexivity.
  - vm_compute. reflexivity.
  - vm_compute. apply list_elem_of_here.
  - vm_compute. reflexivity.
  - intros x y Hx%list_elem_of_singleton Hy%list_elem_of_singleton. by subst.
Defined.

(** C10, as stated, fails: [lib.js] has no directive, so its inclusion
    entries are itself only, yet [app.js] names it; its handler has a parent
    and [WriteOutput] skips it. *)
Lemma self_only_file_has_parent :
  ∃ m' fh x,
    @ConfigureHandlers stable_runtime Registry.registeredHandlers 1
      (NewManifest two_files) = Some (Done m') ∧
    FileHandlerOf m' !! "lib.js" = Some fh ∧ handlers m' !! fh = Some x ∧
    FileSet x = [fh] ∧ ParentHandlers x ≠ [] ∧ fh ∉ WriteOutput m'.
Proof.
  eexists _, 1, _. split; [vm_compute; reflexivity|].
  split; [vm_compute; reflexivity|]. split; [vm_compute; reflexivity|].
  split; [reflexivity|]. split; [done|].
  vm_compute. intros Hin%list_elem_of_singleton. lia.
Qed.

Lemma self_inclusion_keeps_root_witness :
  ∃ m' fh x,
    @ConfigureHandlers stable_runtime Registry.registeredHandlers 1
      (NewManifest two_files) = Some (Done m') ∧
    FileHandlerOf m' !! "app.js" = Some fh ∧ handlers m' !! fh = Some x ∧
    fh ∈ FileSet x ∧ ParentHandlers x = [] ∧ fh ∈ WriteOutput m'.
Proof.
  assert (∃ m', @ConfigureHandlers stable_runtime Registry.registeredHandlers 1
                  (NewManifest two_files) = Some (Done m')) as [m' Hrun].
  { eexists. vm_compute. reflexivity. }
  exists m'.
  destruct (proj2 (@self_inclusion_keeps_root stable_runtime Registry.registeredHandlers)
              1 two_files m' "app.js" Hrun) as (fh & x & Hfound).
  - eexists. vm_compute. reflexivity.
  - intros q g Hq Hne. unfold two_files in Hq.
    rewrite lookup_insert_ne in Hq by done.
    destruct (decide (q = "lib.js")) as [->|Hlib].
    + rewrite lookup_insert_eq in Hq. injection Hq as <-. apply not_elem_of_nil.
    + by rewrite lookup_insert_ne, lookup_empty in Hq.
  - exists fh, x. by split.
Defined.

(** *** More on the linking loops *)

Lemma AddFileHandler_outcome self fh (s : store) :
  (∃ s', AddFileHandler self fh s = Done s') ∨
  AddFileHandler self fh s = Panicked nil_deref.
Proof.
  unfold AddFileHandler, AddParentFileHandler, deref.
  destruct (bool_decide (fh ≠ self)); simpl.
  - destruct (s !! fh) as [x|]; simpl; [|by right].
    destruct (_ !! self) as [y|]; simpl; [left; eauto|by right].
  - destruct (s !! self) as [y|]; simpl; [left; eauto|by right].
Qed.

(** What every [AddFileHandler] keeps, the loops keep. *)
Lemma add_directive_files_preserves (P : store → Prop) :
  (∀ self fh s s', AddFileHandler self fh s = Done s' → P s → P s') →
  ∀ fhOf self named b s b' s',
    add_directive_files fhOf self named b s = Done (b', s') → P s → P s'.
Proof.
  intros Hstep fhOf self. induction named as [|t rest IH]; intros b s b' s'; simpl.
  { by intros [= <- <-]. }
  destruct (fhOf !! t) as [kt|]; [|done].
  destruct (AddFileHandler self kt s) as [s1| |] eqn:Hadd; [|done..]. simpl.
  intros Hrest HP. eapply IH; [done|]. by eapply Hstep.
Qed.

Lemma link_files_preserves (P : store → Prop) :
  (∀ self fh s s', AddFileHandler self fh s = Done s' → P s → P s') →
  ∀ fhOf fl s s', link_files fhOf fl s = Done s' → P s → P s'.
Proof.
  intros Hstep fhOf. induction fl as [|[path file] rest IH]; intros s s'; simpl.
  { by intros [= <-]. }
  destruct (fhOf !! path) as [self|]; [|done].
  destruct (add_directive_files fhOf self (concat (Directives file)) false s)
    as [[selfAdded s1]| |] eqn:Hnamed; [|done..].
  destruct (if selfAdded then Done s1 else AddFileHandler self self s1)
    as [s2| |] eqn:Hadd; [|done..].
  simpl. intros Hrest HP. eapply IH; [done|].
  apply (add_directive_files_preserves P Hstep) in Hnamed; [|done].
  destruct selfAdded; [by injection Hadd as <-|by eapply Hstep].
Qed.

Lemma AddFileHandler_file self fh q (s s' : store) :
  AddFileHandler self fh s = Done s' → File <$> s' !! q = File <$> s !! q.
Proof.
  intros (_ & _ & Hlen & Hlook)%AddFileHandler_lookup.
  destruct (s !! q) as [f|] eqn:Hf.
  - by rewrite (Hlook q f Hf).
  - apply lookup_ge_None in Hf. rewrite lookup_ge_None_2; [done|lia].
Qed.

Lemma link_files_file fhOf fl q (s s' : store) :
  link_files fhOf fl s = Done s' → File <$> s' !! q = File <$> s !! q.
Proof.
  intros Hlink.
  apply (link_files_preserves (λ s1, File <$> s1 !! q = File <$> s !! q)) in Hlink;
    [done| |done].
  intros self fh s1 s2 Hadd <-. by eapply AddFileHandler_file.
Qed.

Lemma link_files_mirrored fhOf fl (s s' : store) :
  link_files fhOf fl s = Done s' → mirrored s → mirrored s'.
Proof. apply (link_files_preserves mirrored). apply AddFileHandler_preserves_mirrored. Qed.

Lemma add_directive_files_named fhOf self : ∀ named b (s : store) r,
  add_directive_files fhOf self named b s = Done r →
  ∀ t, t ∈ named → is_Some (fhOf !! t).
Proof.
  induction named as [|t0 rest IH]; intros b s r; simpl.
  { intros _ t Ht. by apply elem_of_nil in Ht. }
  destruct (fhOf !! t0) as [kt|] eqn:Ht0; [|done].
  destruct (AddFileHandler self kt s) as [s1| |]; [|done..]. simpl.
  intros Hrest t [->|Ht]%elem_of_cons; [by rewrite Ht0|by eapply IH].
Qed.

Lemma link_files_named fhOf : ∀ fl (s s' : store),
  link_files fhOf fl s = Done s' →
  ∀ q g t, (q, g) ∈ fl → t ∈ concat (Directives g) → is_Some (fhOf !! t).
Proof.
  induction fl as [|[path file] rest IH]; intros s s'; simpl.
  { intros _ q g t Hin. by apply elem_of_nil in Hin. }
  destruct (fhOf !! path) as [self|]; [|done].
  destruct (add_directive_files fhOf self (concat (Directives file)) false s)
    as [[selfAdded s1]| |] eqn:Hnamed; [|done..].
  destruct (if selfAdded then Done s1 else AddFileHandler self self s1)
    as [s2| |]; [|done..].
  simpl. intros Hrest q g t [[= -> ->]|Hin]%elem_of_cons Ht.
  - by eapply add_directive_files_named.
  - by eapply IH.
Qed.

Lemma add_directive_files_outcome fhOf self : ∀ named b (s : store),
  (∃ r, add_directive_files fhOf self named b s = Done r) ∨
  add_directive_files fhOf self named b s = Panicked nil_deref.
Proof.
  induction named as [|t rest IH]; intros b s; simpl; [left; eauto|].
  destruct (fhOf !! t) as [kt|]; [|by right].
  destruct (AddFileHandler_outcome self kt s) as [[s1 ->]| ->]; simpl; [apply IH|by right].
Qed.

Lemma link_files_outcome fhOf : ∀ fl (s : store),
  (∃ s', link_files fhOf fl s = Done s') ∨ link_files fhOf fl s = Panicked nil_deref.
Proof.
  induction fl as [|[path file] rest IH]; intros s; simpl; [left; eauto|].
  destruct (fhOf !! path) as [self|]; [|by right].
  destruct (add_directive_files_outcome fhOf self (concat (Directives file)) false s)
    as [[[selfAdded s1] ->]| ->]; [|by right].
  destruct selfAdded; simpl; [apply IH|].
  destruct (AddFileHandler_outcome self self s1) as [[s2 ->]| ->]; simpl; [apply IH|by right].
Qed.

(** *** The file set of a handler *)

Lemma AddFileHandler_fileSet self fh q (s s' : store) f :
  AddFileHandler self fh s = Done s' → s !! q = Some f →
  FileSet <$> s' !! q = Some (FileSet f ++ (if decide (q = self) then [fh] else [])).
Proof.
  intros (_ & _ & _ & Hlook)%AddFileHandler_lookup Hq. by rewrite (Hlook q f Hq).
Qed.

Lemma AddFileHandler_fileSet_other self fh q (s s' : store) :
  AddFileHandler self fh s = Done s' → q ≠ self →
  FileSet <$> s' !! q = FileSet <$> s !! q.
Proof.
  intros Hadd Hne. destruct (s !! q) as [f|] eqn:Hf.
  - rewrite (AddFileHandler_fileSet _ _ _ _ _ _ Hadd Hf).
    rewrite decide_False by done. by rewrite app_nil_r.
  - apply AddFileHandler_lookup in Hadd as (_ & _ & Hlen & _).
    apply lookup_ge_None in Hf. rewrite lookup_ge_None_2; [done|lia].
Qed.

Lemma add_directive_files_fileSet fhOf self : ∀ named b (s : store) b' s' f,
  add_directive_files fhOf self named b s = Done (b', s') → s !! self = Some f →
  ∃ ks, Forall2 (λ t k, fhOf !! t = Some k) named ks ∧
        FileSet <$> s' !! self = Some (FileSet f ++ ks) ∧
        b' = b || bool_decide (self ∈ ks).
Proof.
  induction named as [|t rest IH]; intros b s b' s' f; simpl.
  { intros [= <- <-] Hf. exists []. split; [constructor|].
    rewrite Hf, app_nil_r. split; [done|].
    rewrite bool_decide_eq_false_2; [by rewrite orb_false_r|apply not_elem_of_nil]. }
  destruct (fhOf !! t) as [kt|] eqn:Ht; [|done].
  destruct (AddFileHandler self kt s) as [s1| |] eqn:Hadd; [|done..]. simpl.
  intros Hrest Hf.
  pose proof (AddFileHandler_fileSet _ _ self _ _ _ Hadd Hf) as Hs1.
  rewrite decide_True in Hs1 by done.
  apply fmap_Some in Hs1 as (f1 & Hf1 & Hset1).
  destruct (IH _ _ _ _ _ Hrest Hf1) as (ks & Hks & Hset & Hb).
  exists (kt :: ks). split; [by constructor|]. split.
  - rewrite Hset, <- Hset1, <- app_assoc. done.
  - rewrite Hb, <- orb_assoc. f_equal.
    destruct (decide (kt = self)) as [->|Hne].
    + rewrite (bool_decide_eq_true_2 (self = self)) by done.
      by rewrite (bool_decide_eq_true_2 (self ∈ self :: ks)) by (by left).
    + rewrite (bool_decide_eq_false_2 (kt = self)) by done. simpl.
      apply bool_decide_ext. rewrite elem_of_cons. intuition congruence.
Qed.

Lemma add_directive_files_fileSet_other fhOf self q : q ≠ self →
  ∀ named b (s : store) b' s',
    add_directive_files fhOf self named b s = Done (b', s') →
    FileSet <$> s' !! q = FileSet <$> s !! q.
Proof.
  intros Hne. induction named as [|t rest IH]; intros b s b' s'; simpl.
  { by intros [= <- <-]. }
  destruct (fhOf !! t) as [kt|]; [|done].
  destruct (AddFileHandler self kt s) as [s1| |] eqn:Hadd; [|done..]. simpl.
  intros Hrest. rewrite (IH _ _ _ _ Hrest). by eapply AddFileHandler_fileSet_other.
Qed.

Lemma link_files_fileSet_other fhOf k : ∀ fl (s s' : store),
  link_files fhOf fl s = Done s' →
  (∀ q g, (q, g) ∈ fl → fhOf !! q ≠ Some k) →
  FileSet <$> s' !! k = FileSet <$> s !! k.
Proof.
  induction fl as [|[path file] rest IH]; intros s s'; simpl.
  { by intros [= <-]. }
  destruct (fhOf !! path) as [self|] eqn:Hself; [|done].
  destruct (add_directive_files fhOf self (concat (Directives file)) false s)
    as [[selfAdded s1]| |] eqn:Hnamed; [|done..].
  destruct (if selfAdded then Done s1 else AddFileHandler self self s1)
    as [s2| |] eqn:Hadd; [|done..].
  simpl. intros Hrest Hother.
  assert (k ≠ self) as Hne.
  { intros ->. by eapply (Hother path file); [left|]. }
  rewrite (IH _ _ Hrest) by (intros q g ?; apply (Hother q g); by right).
  rewrite <- (add_directive_files_fileSet_other _ _ k Hne _ _ _ _ _ Hnamed).
  destruct selfAdded; [by injection Hadd as <-|].
  by eapply AddFileHandler_fileSet_other.
Qed.

(** The second loop gives a handler the handlers of the files its directives
    name, in order, and then the handler itself unless it is among them. *)
Lemma link_files_fileSet fhOf :
  (∀ p1 p2 k, fhOf !! p1 = Some k → fhOf !! p2 = Some k → p1 = p2) →
  ∀ fl (s s' : store), NoDup fl.*1 → link_files fhOf fl s = Done s' →
  ∀ path file k f, (path, file) ∈ fl → fhOf !! path = Some k → s !! k = Some f →
  ∃ ks, Forall2 (λ t kt, fhOf !! t = Some kt) (concat (Directives file)) ks ∧
        FileSet <$> s' !! k =
          Some (FileSet f ++ ks ++ (if decide (k ∈ ks) then [] else [k])).
Proof.
  intros Hinj. induction fl as [|[p0 file0] rest IH]; intros s s' Hnodup; simpl.
  { intros _ path file k f Hin. by apply elem_of_nil in Hin. }
  simpl in Hnodup. apply NoDup_cons in Hnodup as [Hp0 Hnodup].
  destruct (fhOf !! p0) as [self|] eqn:Hself; [|done].
  destruct (add_directive_files fhOf self (concat (Directives file0)) false s)
    as [[selfAdded s1]| |] eqn:Hnamed; [|done..].
  destruct (if selfAdded then Done s1 else AddFileHandler self self s1)
    as [s2| |] eqn:Hadd; [|done..].
  simpl. intros Hrest path file k f [[= -> ->]|Hin]%elem_of_cons Hk Hf.
  - assert (self = k) as -> by congruence.
    destruct (add_directive_files_fileSet _ _ _ _ _ _ _ _ Hnamed Hf)
      as (ks & Hks & Hset & Hb).
    exists ks. split; [done|].
    rewrite (link_files_fileSet_other _ k _ _ _ Hrest).
    2: { intros q g Hq Hqk. apply Hp0. replace p0 with q by (by eapply Hinj).
         apply list_elem_of_fmap. by exists (q, g). }
    simpl in Hb. subst selfAdded. destruct (decide (k ∈ ks)) as [Hyes|Hno].
    + rewrite bool_decide_eq_true_2 in Hadd by done. injection Hadd as <-.
      by rewrite Hset, app_nil_r.
    + rewrite bool_decide_eq_false_2 in Hadd by done.
      apply fmap_Some in Hset as (f1 & Hf1 & Hset1).
      rewrite (AddFileHandler_fileSet _ _ k _ _ _ Hadd Hf1).
      rewrite decide_True by done. by rewrite <- Hset1, <- app_assoc.
  - assert (k ≠ self) as Hne.
    { intros ->. apply Hp0. replace p0 with path by (by eapply Hinj).
      apply list_elem_of_fmap. by exists (path, file). }
    assert (FileSet <$> s2 !! k = Some (FileSet f)) as Hs2.
    { transitivity (FileSet <$> s !! k); [|by rewrite Hf].
      transitivity (FileSet <$> s1 !! k).
      - destruct selfAdded; [by injection Hadd as <-|].
        by eapply AddFileHandler_fileSet_other.
      - by eapply add_directive_files_fileSet_other. }
    apply fmap_Some in Hs2 as (f2 & Hf2 & Hset2).
    destruct (IH _ _ Hnodup Hrest path file k f2 Hin Hk Hf2) as (ks & Hks & Hset).
    exists ks. split; [done|]. by rewrite Hset, Hset2.
Qed.

Section ConfigureMore.
Context `{GoRuntime}.
Variable reg : Registry.t.

Lemma build_chains_dom fuel : ∀ fl m m',
  build_chains reg fuel fl m = Some (Done m') →
  ∀ path, is_Some (FileHandlerOf m' !! path) →
          path ∈ fl.*1 ∨ is_Some (FileHandlerOf m !! path).
Proof.
  induction fl as [|[p file] rest IH]; intros m m'; simpl.
  { intros [= <-] path ?. by right. }
  destruct (NewFileHandler reg fuel (Ext file)) as [[fh| |]|]; [|done..].
  intros Hrest path Hsome. destruct (IH _ _ Hrest path Hsome) as [Hin|Hold].
  - left. by right.
  - simpl in Hold. destruct (decide (path = p)) as [->|Hne]; [left; by left|].
    rewrite lookup_insert_ne in Hold by done. by right.
Qed.

(** X15.  A directive that names a file the manifest does not hold is not
    reported as an error: once the chains are built, [ConfigureHandlers]
    panics on the nil [FileHandler] of that file. *)
Theorem ConfigureHandlers_missing_file fuel files m1 q g t :
  build_chains reg fuel (go_range RangeFilesBuild files) (NewManifest files)
    = Some (Done m1) →
  files !! q = Some g → t ∈ concat (Directives g) → files !! t = None →
  ConfigureHandlers reg fuel (NewManifest files) = Some (Panicked nil_deref).
Proof.
  intros Hbuild Hq Ht Hmissing.
  assert (FileHandlerOf m1 !! t = None) as Hnil.
  { apply eq_None_not_Some. intros Hsome.
    destruct (build_chains_dom _ _ _ _ Hbuild t Hsome) as [Hin|Hold].
    - apply list_elem_of_fmap in Hin as ([t' g'] & -> & Hin).
      rewrite go_range_perm in Hin. apply elem_of_map_to_list in Hin.
      simpl in Hmissing. congruence.
    - simpl in Hold. rewrite lookup_empty in Hold. by destruct Hold. }
  unfold ConfigureHandlers, NewManifest in *. simpl. rewrite Hbuild.
  apply build_chains_fresh in Hbuild as (_ & Hmap & _); [|apply fresh_NewManifest].
  simpl in Hmap. rewrite Hmap.
  destruct (link_files_outcome (FileHandlerOf m1) (go_range RangeFilesLink files)
              (handlers m1)) as [[s2 Hlink]| ->]; [|done].
  exfalso. destruct (link_files_named _ _ _ _ Hlink q g t) as [k Hk]; [|done|congruence].
  rewrite go_range_perm. by apply elem_of_map_to_list.
Qed.

Lemma build_chains_filed fuel : ∀ fl m m',
  NoDup fl.*1 → (∀ path, path ∈ fl.*1 → FileHandlerOf m !! path = None) →
  filed m → build_chains reg fuel fl m = Some (Done m') →
  filed m' ∧ length (handlers m') = length (handlers m) + length fl.
Proof.
  induction fl as [|[p file] rest IH]; intros m m' Hnodup Hnew Hfiled; simpl.
  { intros [= <-]. split; [done|lia]. }
  destruct (NewFileHandler reg fuel (Ext file)) as [[fh| |]|]; [|done..].
  simpl in Hnodup. apply NoDup_cons in Hnodup as [Hp Hnodup].
  intros Hrest. apply IH in Hrest as [Hfiled' Hlen]; [| done | |].
  - split; [done|]. rewrite Hlen. simpl. rewrite length_app. simpl. lia.
  - intros path Hpath. simpl. rewrite lookup_insert_ne by (intros ->; done).
    apply Hnew. simpl. by right.
  - destruct Hfiled as [Hfile Hsurj]. split; simpl.
    + intros path k. destruct (decide (path = p)) as [->|Hne].
      * rewrite lookup_insert_eq. intros [= <-]. eexists.
        split; [apply list_lookup_middle; done|done].
      * rewrite lookup_insert_ne by done. intros Hk.
        destruct (Hfile path k Hk) as (x & Hx & Hfx). exists x.
        split; [|done]. by apply lookup_app_l_Some.
    + intros k. rewrite length_app. simpl. intros Hk.
      destruct (decide (k = length (handlers m))) as [->|Hne].
      * exists p. by rewrite lookup_insert_eq.
      * destruct (Hsurj k ltac:(lia)) as [path Hpath]. exists path.
        rewrite lookup_insert_ne; [done|]. intros <-.
        rewrite Hnew in Hpath; [done|]. simpl. by left.
Qed.

Lemma filed_NewManifest files : filed (NewManifest files).
Proof.
  split; simpl.
  - intros path k Hk. by rewrite lookup_empty in Hk.
  - intros k Hk. lia.
Qed.

Lemma go_range_NoDup {V} site (m : gmap string V) : NoDup (go_range site m).*1.
Proof. rewrite go_range_perm. apply NoDup_fst_map_to_list. Qed.

Lemma go_range_lookup {V} site (m : gmap string V) k v :
  (k, v) ∈ go_range site m ↔ m !! k = Some v.
Proof. rewrite go_range_perm. apply elem_of_map_to_list. Qed.

(** The stages of a configuration that succeeds. *)
Lemma ConfigureHandlers_Done_inv fuel files m' :
  ConfigureHandlers reg fuel (NewManifest files) = Some (Done m') →
  ∃ m1 s2,
    build_chains reg fuel (go_range RangeFilesBuild files) (NewManifest files)
      = Some (Done m1) ∧
    link_files (FileHandlerOf m1) (go_range RangeFilesLink files) (handlers m1) = Done s2 ∧
    store_evolves s2 (handlers m') ∧
    fileHandlers m' = sort_byLenParentHandlersReversed s2 (fileHandlers m1) ∧
    FileHandlerOf m' = FileHandlerOf m1 ∧ FilePathMapping m' = files.
Proof.
  intros Hconf.
  destruct (build_chains reg fuel (go_range RangeFilesBuild files) (NewManifest files))
    as [[m1| |]|] eqn:Hbuild;
    [| unfold ConfigureHandlers, NewManifest in *; simpl in *;
       rewrite Hbuild in Hconf; done ..].
  destruct (link_files (FileHandlerOf m1) (go_range RangeFilesLink files) (handlers m1))
    as [s2| |] eqn:Hlink.
  2,3: unfold ConfigureHandlers, NewManifest in *; simpl in *;
       rewrite Hbuild in Hconf;
       pose proof (build_chains_fresh _ _ _ _ _ (fresh_NewManifest files) Hbuild)
         as (_ & Hmap & _); simpl in Hmap; rewrite Hmap, Hlink in Hconf; done.
  rewrite (ConfigureHandlers_unfold _ _ _ _ _ Hbuild Hlink) in Hconf.
  destruct (ConfigureHandlers_linked _ _ _ _ _ Hbuild Hlink)
    as (_ & _ & _ & Hval & Hsorted).
  destruct (merge_all_spec (sort_byLenParentHandlersReversed s2 (fileHandlers m1)) s2)
    as [[Hfail _]|(s3 & Hmerge & Hev & _)];
    [done | by intros fh ?%Hsorted | by rewrite Hfail in Hconf |].
  rewrite Hmerge in Hconf. simpl in Hconf. injection Hconf as <-.
  by exists m1, s2.
Qed.

Lemma ConfigureHandlers_handlers_of_files fuel files m' :
  ConfigureHandlers reg fuel (NewManifest files) = Some (Done m') →
  length (handlers m') = size files ∧
  fileHandlers m' ≡ₚ seq 0 (size files) ∧
  (∀ path, is_Some (FileHandlerOf m' !! path) ↔ is_Some (files !! path)) ∧
  (∀ p1 p2 k, FileHandlerOf m' !! p1 = Some k → FileHandlerOf m' !! p2 = Some k →
     p1 = p2) ∧
  (∀ path k, FileHandlerOf m' !! path = Some k →
     ∃ x, handlers m' !! k = Some x ∧ File x = Some path).
Proof.
  intros (m1 & s2 & Hbuild & Hlink & Hev & -> & -> & _)%ConfigureHandlers_Done_inv.
  destruct (build_chains_filed _ _ _ _ (go_range_NoDup _ files)
              (λ path _, lookup_empty path) (filed_NewManifest files) Hbuild)
    as [[Hfile _] Hlen].
  destruct (build_chains_fresh _ _ _ _ _ (fresh_NewManifest files) Hbuild)
    as ((Hseq & _ & _ & Hinj) & _ & Hdom).
  destruct (link_files_spec _ 0 _ _ _ Hlink) as ([Hlen2 _] & _).
  simpl in Hlen. rewrite (Permutation_length (go_range_perm _ files)) in Hlen.
  rewrite length_map_to_list in Hlen.
  assert (length (handlers m') = size files) as Hsize.
  { rewrite (proj1 Hev). lia. }
  split; [done|]. split.
  { unfold sort_byLenParentHandlersReversed. rewrite go_sort_perm, Hseq. by rewrite Hlen. }
  split; [|split; [done|]].
  - intros path. split.
    + intros Hsome. destruct (build_chains_dom _ _ _ _ Hbuild path Hsome) as [Hin|Hold].
      * apply list_elem_of_fmap in Hin as ([p g] & -> & Hin).
        apply go_range_lookup in Hin. by eexists.
      * simpl in Hold. rewrite lookup_empty in Hold. by destruct Hold.
    + intros [g Hg]. apply Hdom. left. apply list_elem_of_fmap.
      exists (path, g). split; [done|]. by apply go_range_lookup.
  - intros path k Hk. destruct (Hfile path k Hk) as (x1 & Hx1 & Hf1).
    destruct (lookup_lt_is_Some_2 s2 k) as [x2 Hx2].
    { rewrite Hlen2. by eapply lookup_lt_Some. }
    destruct (proj2 Hev k x2 Hx2) as (x & Hx & Evo). exists x. split; [done|].
    rewrite (ev_file _ _ Evo).
    pose proof (link_files_file _ _ k _ _ Hlink) as Hfileeq.
    rewrite Hx2, Hx1 in Hfileeq. simpl in Hfileeq. congruence.
Qed.

(** X16.  A configuration that succeeds has made one handler per file: as
    many handlers as files, all of them listed in [fileHandlers], each file
    with a handler of its own that records the file. *)
Theorem ConfigureHandlers_one_handler_per_file fuel files m' :
  ConfigureHandlers reg fuel (NewManifest files) = Some (Done m') →
  length (handlers m') = size files ∧
  fileHandlers m' ≡ₚ seq 0 (size files) ∧
  (∀ path, is_Some (FileHandlerOf m' !! path) ↔ is_Some (files !! path)) ∧
  (∀ p1 p2 k, FileHandlerOf m' !! p1 = Some k → FileHandlerOf m' !! p2 = Some k →
     p1 = p2) ∧
  (∀ path k, FileHandlerOf m' !! path = Some k →
     ∃ x, handlers m' !! k = Some x ∧ File x = Some path).
Proof. apply ConfigureHandlers_handlers_of_files. Qed.

(** What the successful configuration of a file leaves for its handler. *)
Lemma ConfigureHandlers_fileSet_of fuel files m' path file :
  ConfigureHandlers reg fuel (NewManifest files) = Some (Done m') →
  files !! path = Some file →
  ∃ k x ks,
    FileHandlerOf m' !! path = Some k ∧ handlers m' !! k = Some x ∧
    Forall2 (λ t kt, FileHandlerOf m' !! t = Some kt) (concat (Directives file)) ks ∧
    FileSet x = ks ++ (if decide (k ∈ ks) then [] else [k]).
Proof.
  intros Hconf Hfile.
  destruct (ConfigureHandlers_handlers_of_files _ _ _ Hconf)
    as (_ & _ & Hdom & _ & _).
  destruct (proj2 (Hdom path)) as [k Hk]; [by eexists|].
  destruct (ConfigureHandlers_Done_inv _ _ _ Hconf)
    as (m1 & s2 & Hbuild & Hlink & Hev & _ & HfhOf & _).
  rewrite HfhOf in *.
  destruct (build_chains_fresh _ _ _ _ _ (fresh_NewManifest files) Hbuild)
    as ((_ & Hunlinked & Hbound & Hinj) & _ & _).
  destruct (lookup_lt_is_Some_2 (handlers m1) k (Hbound _ _ Hk)) as [x0 Hx0].
  destruct (link_files_fileSet _ Hinj _ _ _ (go_range_NoDup _ files) Hlink
              path file k x0) as (ks & Hks & Hset); [by apply go_range_lookup|done..|].
  destruct (Hunlinked k x0 Hx0) as [Hnil _]. rewrite Hnil in Hset. simpl in Hset.
  apply fmap_Some in Hset as (x2 & Hx2 & Hset2).
  destruct (proj2 Hev k x2 Hx2) as (x & Hx & Evo).
  exists k, x, ks. split; [done|]. split; [done|]. split; [done|].
  by rewrite (ev_fileSet _ _ Evo).
Qed.

(** X17.  After a configuration that succeeds, the file set of a handler
    holds the handlers of the files that its file's directives name, in the
    order of the directives, followed by the handler itself unless a
    directive named its own file. *)
Theorem ConfigureHandlers_fileSet fuel files m' path file :
  ConfigureHandlers reg fuel (NewManifest files) = Some (Done m') →
  files !! path = Some file →
  ∃ k x ks,
    FileHandlerOf m' !! path = Some k ∧ handlers m' !! k = Some x ∧
    Forall2 (λ t kt, FileHandlerOf m' !! t = Some kt) (concat (Directives file)) ks ∧
    FileSet x = ks ++ (if decide (k ∈ ks) then [] else [k]).
Proof. apply ConfigureHandlers_fileSet_of. Qed.

Lemma ConfigureHandlers_mirror fuel files m' :
  ConfigureHandlers reg fuel (NewManifest files) = Some (Done m') →
  mirrored (handlers m') ∧ parents_valid (handlers m').
Proof.
  intros (m1 & s2 & Hbuild & Hlink & Hev & _)%ConfigureHandlers_Done_inv.
  destruct (ConfigureHandlers_linked _ _ _ _ _ Hbuild Hlink) as (Hfresh & _ & _ & Hval & _).
  split; [|by eapply parents_valid_evolves].
  eapply mirrored_evolves; [done|]. eapply link_files_mirrored; [done|].
  apply mirrored_unlinked. apply Hfresh.
Qed.

(** X18.  After a configuration that succeeds, the parents of a handler are
    exactly the other handlers that have it in their file set. *)
Theorem ConfigureHandlers_mirrored fuel files m' :
  ConfigureHandlers reg fuel (NewManifest files) = Some (Done m') →
  mirrored (handlers m').
Proof. intros Hconf. by destruct (ConfigureHandlers_mirror _ _ _ Hconf). Qed.

(** X19.  After a configuration that succeeds, [WriteOutput] writes the
    output of a file exactly when no other file's directives name it. *)
Theorem WriteOutput_iff_not_named fuel files m' path k :
  ConfigureHandlers reg fuel (NewManifest files) = Some (Done m') →
  FileHandlerOf m' !! path = Some k →
  k ∈ WriteOutput m' ↔
    ∀ q g, files !! q = Some g → q ≠ path → path ∉ concat (Directives g).
Proof.
  intros Hconf Hk.
  destruct (ConfigureHandlers_handlers_of_files _ _ _ Hconf)
    as (Hlen & Hperm & Hdom & Hinj & Hfile).
  destruct (ConfigureHandlers_mirror _ _ _ Hconf) as [Hmir Hval].
  destruct (Hfile path k Hk) as (x & Hx & _).
  assert (k ∈ WriteOutput m' ↔ ParentHandlers x = []) as ->.
  { unfold WriteOutput. rewrite list_elem_of_filter, elem_of_reverse, Hperm, elem_of_seq.
    unfold is_root. rewrite Hx. pose proof (lookup_lt_Some _ _ _ Hx).
    destruct (ParentHandlers x); simpl; split; try done; [intros _; split; [done|lia]|].
    by intros [? _]. }
  split.
  - intros Hroot q g Hq Hne Hnamed.
    destruct (ConfigureHandlers_fileSet_of _ _ _ _ _ Hconf Hq)
      as (p & xp & ks & Hp & Hxp & Hks & Hset).
    apply list_elem_of_lookup_1 in Hnamed as [i Hi].
    destruct (Forall2_lookup_l _ _ _ _ _ Hks Hi) as (k' & Hk' & Hpath).
    assert (k' = k) as -> by congruence.
    assert (p ∈ ParentHandlers x) as Hin.
    { apply (Hmir p k xp x Hxp Hx). split.
      - rewrite Hset. apply elem_of_app. left. by eapply list_elem_of_lookup_2.
      - intros ->. apply Hne. by eapply Hinj. }
    rewrite Hroot in Hin. by apply elem_of_nil in Hin.
  - intros Hothers. destruct (ParentHandlers x) as [|p ps] eqn:Hps; [done|]. exfalso.
    assert (p ∈ ParentHandlers x) as Hin by (rewrite Hps; by left).
    destruct (lookup_lt_is_Some_2 (handlers m') p) as [xp Hxp]; [by eapply Hval|].
    destruct (proj1 (Hmir p k xp x Hxp Hx) Hin) as [Hkin Hkp].
    destruct (ConfigureHandlers_Done_inv _ _ _ Hconf)
      as (m1 & s2 & Hbuild & Hlink & Hev & _ & HfhOf & _).
    destruct (build_chains_filed _ _ _ _ (go_range_NoDup _ files)
                (λ t _, lookup_empty t) (filed_NewManifest files) Hbuild)
      as [[_ Hsurj] Hlen1].
    destruct (Hsurj p) as [q Hq].
    { destruct (link_files_spec _ 0 _ _ _ Hlink) as ([Hlen2 _] & _).
      rewrite <- Hlen2, <- (proj1 Hev). by eapply lookup_lt_Some. }
    rewrite <- HfhOf in Hq.
    destruct (proj1 (Hdom q)) as [g Hg]; [by eexists|].
    destruct (ConfigureHandlers_fileSet_of _ _ _ _ _ Hconf Hg)
      as (p' & xp' & ks & Hp' & Hxp' & Hks & Hset).
    assert (p' = p) as -> by congruence. assert (xp' = xp) as -> by congruence.
    rewrite Hset in Hkin. apply elem_of_app in Hkin as [Hkin|Hkin].
    + apply list_elem_of_lookup_1 in Hkin as [i Hi].
      destruct (Forall2_lookup_r _ _ _ _ _ Hks Hi) as (t & Ht & Htk).
      assert (t = path) as -> by (by eapply Hinj).
      apply (Hothers q g Hg); [|by eapply list_elem_of_lookup_2].
      intros ->. congruence.
    + destruct (decide (p ∈ ks)); [by apply elem_of_nil in Hkin|].
      apply list_elem_of_singleton in Hkin. done.
Qed.

(** X25.  After a configuration that succeeds, [WriteOutput] writes no
    output twice, and every output it writes is that of a file of the
    manifest. *)
Theorem WriteOutput_once fuel files m' :
  ConfigureHandlers reg fuel (NewManifest files) = Some (Done m') →
  NoDup (WriteOutput m') ∧
  ∀ k, k ∈ WriteOutput m' →
       ∃ path, is_Some (files !! path) ∧ FileHandlerOf m' !! path = Some k.
Proof.
  intros Hconf.
  destruct (ConfigureHandlers_handlers_of_files _ _ _ Hconf)
    as (Hlen & Hperm & Hdom & _ & _).
  split.
  - unfold WriteOutput. apply NoDup_filter.
    rewrite reverse_Permutation, Hperm. apply NoDup_seq.
  - intros k [_ Hk]%list_elem_of_filter.
    rewrite elem_of_reverse, Hperm, elem_of_seq in Hk.
    destruct (ConfigureHandlers_Done_inv _ _ _ Hconf)
      as (m1 & s2 & Hbuild & Hlink & Hev & _ & HfhOf & _).
    destruct (build_chains_filed _ _ _ _ (go_range_NoDup _ files)
                (λ t _, lookup_empty t) (filed_NewManifest files) Hbuild)
      as [[_ Hsurj] _].
    destruct (Hsurj k) as [path Hpath].
    { destruct (link_files_spec _ 0 _ _ _ Hlink) as ([Hlen2 _] & _).
      rewrite <- Hlen2, <- (proj1 Hev). lia. }
    rewrite <- HfhOf in Hpath. exists path. split; [|done].
    apply Hdom. by eexists.
Qed.

(** X20.  The converse of the rejection: when the chains, as built and
    linked, give every handler an output extension in common with each of
    its parents, [ConfigureHandlers] succeeds, with the handlers it built and
    listed. *)
Theorem ConfigureHandlers_compatible fuel files m1 (s2 : store) :
  build_chains reg fuel (go_range RangeFilesBuild files) (NewManifest files)
    = Some (Done m1) →
  link_files (FileHandlerOf m1) (go_range RangeFilesLink files) (handlers m1) = Done s2 →
  (∀ c p fc fp, s2 !! c = Some fc → p ∈ ParentHandlers fc → s2 !! p = Some fp →
     ∃ x y, x ∈ HandlerChain fc ∧ y ∈ HandlerChain fp ∧ OutputExt x = OutputExt y) →
  ∃ m', ConfigureHandlers reg fuel (NewManifest files) = Some (Done m') ∧
        FileHandlerOf m' = FileHandlerOf m1 ∧
        fileHandlers m' ≡ₚ fileHandlers m1 ∧
        store_evolves s2 (handlers m').
Proof.
  intros Hbuild Hlink Hshare.
  rewrite (ConfigureHandlers_unfold _ _ _ _ _ Hbuild Hlink).
  destruct (ConfigureHandlers_linked _ _ _ _ _ Hbuild Hlink)
    as (_ & _ & _ & Hval & Hsorted).
  destruct (merge_all_spec (sort_byLenParentHandlersReversed s2 (fileHandlers m1)) s2)
    as [[_ (c & fc & p & _ & Hc & Hp & (fc' & fp & Hc' & Hfp & Hdis))]
       |(s3 & -> & Hev & _)]; [done|by intros fh ?%Hsorted| |].
  - exfalso. assert (fc' = fc) as -> by congruence.
    destruct (Hshare c p fc fp Hc Hp Hfp) as (x & y & Hx & Hy & Heq).
    by apply (Hdis x y).
  - eexists. split; [done|]. simpl. split; [done|]. split; [|done].
    unfold sort_byLenParentHandlersReversed. apply go_sort_perm.
Qed.

End ConfigureMore.

Lemma ConfigureHandlers_fileSet_witness :
  ∃ k x ks,
    @ConfigureHandlers stable_runtime Registry.registeredHandlers 1
      (NewManifest two_files) ≫= (λ r, match r with
                                       | Done m' => handlers m' !! k
                                       | _ => None
                                       end) = Some x ∧
    ks = [1] ∧ k = 0 ∧ FileSet x = ks ++ [k].
Proof.
  assert (∃ m', @ConfigureHandlers stable_runtime Registry.registeredHandlers 1
                  (NewManifest two_files) = Some (Done m')) as [m' Hrun].
  { eexists. vm_compute. reflexivity. }
  destruct (@ConfigureHandlers_fileSet stable_runtime Registry.registeredHandlers
              1 two_files m' "app.js" {| Ext := "js"; Directives := [["lib.js"]] |}
              Hrun eq_refl) as (k & x & ks & Hk & Hx & Hks & Hset).
  vm_compute in Hrun. injection Hrun as <-.
  vm_compute in Hk. injection Hk as <-.
  exists 0, x, [1]. split; [exact Hx|]. split; [done|]. split; [done|].
  simpl in Hks. apply Forall2_cons_inv_l in Hks as (k1 & ks' & Hk1 & Hks' & ->).
  apply Forall2_nil_inv_l in Hks' as ->. vm_compute in Hk1. injection Hk1 as <-.
  exact Hset.
Defined.

Lemma ConfigureHandlers_one_handler_per_file_witness :
  ∃ m', @ConfigureHandlers stable_runtime Registry.registeredHandlers 1
          (NewManifest two_files) = Some (Done m') ∧
        length (handlers m') = 2 ∧ fileHandlers m' ≡ₚ [0; 1].
Proof.
  assert (∃ m', @ConfigureHandlers stable_runtime Registry.registeredHandlers 1
                  (NewManifest two_files) = Some (Done m')) as [m' Hrun].
  { eexists. vm_compute. reflexivity. }
  exists m'. split; [done|].
  destruct (@ConfigureHandlers_one_handler_per_file stable_runtime
              Registry.registeredHandlers 1 two_files m' Hrun) as (Hlen & Hperm & _).
  split; [exact Hlen|exact Hperm].
Defined.

Lemma ConfigureHandlers_mirrored_witness :
  ∃ m', @ConfigureHandlers stable_runtime Registry.registeredHandlers 1
          (NewManifest two_files) = Some (Done m') ∧
        mirrored (handlers m').
Proof.
  assert (∃ m', @ConfigureHandlers stable_runtime Registry.registeredHandlers 1
                  (NewManifest two_files) = Some (Done m')) as [m' Hrun].
  { eexists. vm_compute. reflexivity. }
  exists m'. split; [done|].
  exact (@ConfigureHandlers_mirrored stable_runtime Registry.registeredHandlers
           1 two_files m' Hrun).
Defined.

Lemma WriteOutput_iff_not_named_witness :
  ∃ m', @ConfigureHandlers stable_runtime Registry.registeredHandlers 1
          (NewManifest two_files) = Some (Done m') ∧
        (0 ∈ WriteOutput m' ↔
           ∀ q g, two_files !! q = Some g → q ≠ "app.js" →
                  "app.js" ∉ concat (Directives g)) ∧
        (1 ∈ WriteOutput m' ↔
           ∀ q g, two_files !! q = Some g → q ≠ "lib.js" →
                  "lib.js" ∉ concat (Directives g)).
Proof.
  assert (∃ m', @ConfigureHandlers stable_runtime Registry.registeredHandlers 1
                  (NewManifest two_files) = Some (Done m')) as [m' Hrun].
  { eexists. vm_compute. reflexivity. }
  exists m'. split; [done|]. split.
  - apply (@WriteOutput_iff_not_named stable_runtime Registry.registeredHandlers
             1 two_files m' "app.js" 0 Hrun).
    vm_compute in Hrun. injection Hrun as <-. reflexivity.
  - apply (@WriteOutput_iff_not_named stable_runtime Registry.registeredHandlers
             1 two_files m' "lib.js" 1 Hrun).
    vm_compute in Hrun. injection Hrun as <-. reflexivity.
Defined.

Lemma WriteOutput_once_witness :
  ∃ m', @ConfigureHandlers stable_runtime Registry.registeredHandlers 1
          (NewManifest two_files) = Some (Done m') ∧
        NoDup (WriteOutput m').
Proof.
  assert (∃ m', @ConfigureHandlers stable_runtime Registry.registeredHandlers 1
                  (NewManifest two_files) = Some (Done m')) as [m' Hrun].
  { eexists. vm_compute. reflexivity. }
  exists m'. split; [done|].
  exact (proj1 (@WriteOutput_once stable_runtime Registry.registeredHandlers
                  1 two_files m' Hrun)).
Defined.

Lemma ConfigureHandlers_compatible_witness :
  ∃ m', @ConfigureHandlers stable_runtime Registry.registeredHandlers 1
          (NewManifest two_files) = Some (Done m') ∧
        length (fileHandlers m') = 2.
Proof.
  edestruct (@ConfigureHandlers_compatible stable_runtime Registry.registeredHandlers
               1 two_files) as (m' & Hrun & _ & Hperm & _).
  - vm_compute. reflexivity.
  - vm_compute. reflexivity.
  - intros c p fc fp Hc Hp Hfp.
    destruct c as [|[|c]]; simpl in Hc; [injection Hc as <-..|done]; simpl in Hp.
    + by apply elem_of_nil in Hp.
    + apply list_elem_of_singleton in Hp as ->. simpl in Hfp. injection Hfp as <-.
      eexists _, _. split; [apply list_elem_of_here|].
      split; [apply list_elem_of_here|reflexivity].
  - exists m'. split; [exact Hrun|]. by rewrite (Permutation_length Hperm).
Defined.

Lemma ConfigureHandlers_missing_file_witness :
  @ConfigureHandlers stable_runtime Registry.registeredHandlers 1
    (NewManifest dangling_files) = Some (Panicked nil_deref).
Proof.
  eapply (@ConfigureHandlers_missing_file stable_runtime Registry.registeredHandlers
            1 dangling_files _ "app.js" _ "gone.js").
  - vm_compute. reflexivity.
  - vm_compute. reflexivity.
  - vm_compute. apply list_elem_of_here.
  - reflexivity.
Defined.

End OrchestratorFacts.

(** ** The name index of the [Manifest] *)

Module NamesFacts.

Section NamesFacts.
Context {file dir : Type}.
Variables (Path Name Ext : file → string) (DirPath DirName : dir → string).

#[local] Abbreviation AddFile := (Names.AddFile Path Name Ext).
#[local] Abbreviation AddDir := (Names.AddDir DirPath DirName).
#[local] Abbreviation index_after := (Names.after Path Name Ext DirPath DirName).
#[local] Abbreviation index := (@Names.t file dir).

Lemma files_of_AddFile f (m : index) name :
  Names.files_of (AddFile f m) name =
    if decide (name = Name f) then <[Ext f := f]> (Names.files_of m name)
    else Names.files_of m name.
Proof.
  unfold Names.files_of, Names.AddFile. simpl.
  destruct (Names.NameMapping m !! Name f) as [[d [fs|]]|] eqn:Hf;
    repeat (rewrite ?Hf, ?lookup_insert_eq; simpl);
    (destruct (decide (name = Name f)) as [->|Hne];
      [by rewrite ?Hf, ?lookup_insert_eq
      |by rewrite ?lookup_insert_ne by done]).
Qed.

Lemma files_of_AddDir d (m : index) name :
  Names.files_of (AddDir d m) name = Names.files_of m name.
Proof.
  unfold Names.files_of, Names.AddDir. simpl.
  destruct (Names.NameMapping m !! DirName d) as [[d0 fs]|] eqn:Hd;
    (destruct (decide (name = DirName d)) as [->|Hne];
      [by rewrite Hd, lookup_insert_eq|by rewrite lookup_insert_ne by done]).
Qed.

(** With an extension, [FindFileName] is the lookup among the files of the
    name. *)
Lemma FindFileName_ext range name ext (m : index) :
  ext ≠ "" → Names.FindFileName range name ext m = Names.files_of m name !! ext.
Proof.
  intros Hext. unfold Names.FindFileName, Names.files_of.
  destruct (Names.NameMapping m !! name) as [[d [fs|]]|]; simpl; try done.
  by destruct (decide (ext ≠ "")).
Qed.

(** Without one, it is the first file that the [range] statement visits. *)
Lemma FindFileName_any range name (m : index) :
  (∀ files : gmap string file, range files ≡ₚ map_to_list files) →
  Names.FindFileName range name "" m =
    match range (Names.files_of m name) with
    | (_, f) :: _ => Some f
    | [] => None
    end.
Proof.
  intros Hrange.
  assert (range ∅ = []) as Hnil.
  { apply Permutation_nil_r. by rewrite Hrange, map_to_list_empty. }
  unfold Names.FindFileName, Names.files_of.
  destruct (Names.NameMapping m !! name) as [[d [fs|]]|]; simpl; by rewrite ?Hnil.
Qed.

Lemma FindDirName_AddFile f (m : index) name :
  Names.FindDirName name (AddFile f m) = Names.FindDirName name m.
Proof.
  unfold Names.FindDirName, Names.AddFile. simpl.
  destruct (Names.NameMapping m !! Name f) as [[d [fs|]]|] eqn:Hf;
    repeat (rewrite ?Hf, ?lookup_insert_eq; simpl);
    (destruct (decide (name = Name f)) as [->|Hne];
      [by rewrite ?Hf, ?lookup_insert_eq
      |by rewrite ?lookup_insert_ne by done]).
Qed.

Lemma index_after_snoc cs c :
  index_after (cs ++ [c]) =
    Names.apply_call Path Name Ext DirPath DirName (index_after cs) c.
Proof. unfold Names.after. by rewrite foldl_app. Qed.

(** Every file held under a name and an extension was added, and has that
    name and that extension. *)
Lemma files_of_after cs name e f :
  Names.files_of (index_after cs) name !! e = Some f →
  Names.CallAddFile f ∈ cs ∧ Name f = name ∧ Ext f = e.
Proof.
  revert f. induction cs as [|c cs IH] using rev_ind; intros f.
  { unfold Names.after, Names.files_of. simpl. by rewrite !lookup_empty. }
  rewrite index_after_snoc, elem_of_app, list_elem_of_singleton.
  destruct c as [d|g]; simpl.
  - rewrite files_of_AddDir. intros Hf. destruct (IH f Hf) as (? & ? & ?). auto.
  - rewrite files_of_AddFile. destruct (decide (name = Name g)) as [->|Hne].
    + destruct (decide (e = Ext g)) as [->|Hext].
      * rewrite lookup_insert_eq. intros [= ->]. auto.
      * rewrite lookup_insert_ne by done. intros Hf.
        destruct (IH f Hf) as (? & ? & ?). auto.
    + intros Hf. destruct (IH f Hf) as (? & ? & ?). auto.
Qed.

(** Every file added is held under its name and its extension, unless a
    later file of that name and extension took its place. *)
Lemma files_of_after_added cs f :
  Names.CallAddFile f ∈ cs →
  is_Some (Names.files_of (index_after cs) (Name f) !! Ext f).
Proof.
  induction cs as [|c cs IH] using rev_ind; [by intros ?%elem_of_nil|].
  rewrite index_after_snoc, elem_of_app, list_elem_of_singleton.
  destruct c as [d|g]; simpl.
  - rewrite files_of_AddDir. by intros [Hin|[=]]; apply IH.
  - rewrite files_of_AddFile. destruct (decide (Name f = Name g)) as [Hn|Hn].
    + destruct (decide (Ext f = Ext g)) as [->|He].
      * rewrite lookup_insert_eq. by eexists.
      * rewrite lookup_insert_ne by done. intros [Hin|[= ->]]; [by apply IH|done].
    + intros [Hin|[= ->]]; [by apply IH|done].
Qed.

(** The path mapping holds a file under the path of every file added. *)
Lemma FilePathMapping_after cs p :
  (∀ f, Names.FilePathMapping (index_after cs) !! p = Some f →
        Names.CallAddFile f ∈ cs ∧ Path f = p) ∧
  (∀ f, Names.CallAddFile f ∈ cs → Path f = p →
        is_Some (Names.FilePathMapping (index_after cs) !! p)).
Proof.
  induction cs as [|c cs [IH1 IH2]] using rev_ind.
  { split; [|by intros f ?%elem_of_nil]. unfold Names.after. simpl. intros f.
    by rewrite lookup_empty. }
  rewrite index_after_snoc. setoid_rewrite elem_of_app.
  setoid_rewrite list_elem_of_singleton.
  destruct c as [d|g]; simpl.
  - split.
    + intros f Hf. destruct (IH1 f Hf). auto.
    + intros f [Hin|[=]] Hp. by eapply IH2.
  - destruct (decide (Path g = p)) as [<-|Hne].
    + rewrite lookup_insert_eq. split; [by intros f [= ->]; auto|by eexists].
    + rewrite lookup_insert_ne by done. split.
      * intros f Hf. destruct (IH1 f Hf). auto.
      * intros f [Hin|[= ->]] Hp; [by eapply IH2|done].
Qed.

(** X21.  [AddFile] followed by [FindFileName] with an extension: the file
    added is found under its name and extension, whatever was held there
    before, and every other name or extension finds what it found before. *)
Theorem AddFile_FindFileName range f (m : index) name ext :
  ext ≠ "" →
  Names.FindFileName range name ext (AddFile f m) =
    if decide (name = Name f ∧ ext = Ext f) then Some f
    else Names.FindFileName range name ext m.
Proof.
  intros Hext. rewrite !FindFileName_ext by done. rewrite files_of_AddFile.
  destruct (decide (name = Name f)) as [->|Hn].
  - destruct (decide (ext = Ext f)) as [->|He].
    + rewrite lookup_insert_eq. by rewrite decide_True.
    + rewrite lookup_insert_ne by done. rewrite decide_False; [done|]. by intros [_ ?].
  - rewrite decide_False; [done|]. by intros [? _].
Qed.

(** X22.  Directories and files of one name do not disturb each other:
    [AddDir] makes its directory the one found under its name and changes
    no other answer of [FindDirName] and none of [FindFileName], and
    [AddFile] changes no answer of [FindDirName]. *)
Theorem AddDir_FindDirName d f (m : index) :
  (∀ name, Names.FindDirName name (AddDir d m) =
             if decide (name = DirName d) then Some d else Names.FindDirName name m) ∧
  (∀ range name ext, Names.FindFileName range name ext (AddDir d m) =
                       Names.FindFileName range name ext m) ∧
  (∀ name, Names.FindDirName name (AddFile f m) = Names.FindDirName name m).
Proof.
  split; [|split].
  - intros name. unfold Names.FindDirName, Names.AddDir. simpl.
    destruct (Names.NameMapping m !! DirName d) as [[d0 fs]|] eqn:Hd;
      (destruct (decide (name = DirName d)) as [->|Hne];
        [by rewrite lookup_insert_eq|by rewrite lookup_insert_ne by done]).
  - intros range name ext. unfold Names.FindFileName, Names.AddDir. simpl.
    destruct (Names.NameMapping m !! DirName d) as [[d0 fs]|] eqn:Hd;
      (destruct (decide (name = DirName d)) as [->|Hne];
        [by rewrite Hd, lookup_insert_eq|by rewrite lookup_insert_ne by done]).
  - intros name. apply FindDirName_AddFile.
Qed.

(** X23.  A file that [FindFileName] returns was added with [AddFile], has
    the name asked for and, when an extension was asked for, that
    extension; and the path mapping holds a file under its path. *)
Theorem FindFileName_sound range cs name ext f :
  (∀ files : gmap string file, range files ≡ₚ map_to_list files) →
  Names.FindFileName range name ext (index_after cs) = Some f →
  Names.CallAddFile f ∈ cs ∧ Name f = name ∧ (ext ≠ "" → Ext f = ext) ∧
  is_Some (Names.FilePathMapping (index_after cs) !! Path f).
Proof.
  intros Hrange Hfind.
  assert (∃ e, Names.files_of (index_after cs) name !! e = Some f ∧
               (ext ≠ "" → e = ext)) as (e & He & Hext).
  { destruct (decide (ext = "")) as [->|Hext].
    - rewrite FindFileName_any in Hfind by done.
      destruct (range (Names.files_of (index_after cs) name)) as [|[e g] rest] eqn:Hr;
        [done|]. injection Hfind as ->. exists e. split; [|done].
      apply elem_of_map_to_list. rewrite <- Hrange, Hr. by left.
    - rewrite FindFileName_ext in Hfind by done. by exists ext. }
  destruct (files_of_after _ _ _ _ He) as (Hin & Hname & He').
  split; [done|]. split; [done|]. split; [intros ?; rewrite <- Hext; done|].
  by eapply (proj2 (FilePathMapping_after cs (Path f))).
Qed.

(** X24.  Asked without an extension, [FindFileName] returns a file exactly
    when a file of that name was added, whatever the extensions. *)
Theorem FindFileName_any_extension range cs name :
  (∀ files : gmap string file, range files ≡ₚ map_to_list files) →
  is_Some (Names.FindFileName range name "" (index_after cs)) ↔
    ∃ f, Names.CallAddFile f ∈ cs ∧ Name f = name.
Proof.
  intros Hrange. rewrite FindFileName_any by done. split.
  - destruct (range (Names.files_of (index_after cs) name)) as [|[e g] rest] eqn:Hr;
      [by intros [? ?]|]. intros _.
    assert (Names.files_of (index_after cs) name !! e = Some g) as Hg.
    { apply elem_of_map_to_list. rewrite <- Hrange, Hr. by left. }
    destruct (files_of_after _ _ _ _ Hg) as (? & ? & _). by exists g.
  - intros (f & Hin & <-). destruct (files_of_after_added _ _ Hin) as [g Hg].
    apply elem_of_map_to_list in Hg. rewrite <- Hrange in Hg.
    destruct (range (Names.files_of (index_after cs) (Name f))) as [|[e h] rest];
      [by apply elem_of_nil in Hg|by eexists].
Qed.

End NamesFacts.

Lemma AddFile_FindFileName_witness :
  Names.FindFileName map_to_list "app" "js"
    (Names.AddFile Examples.asset_path Examples.asset_name Examples.asset_ext
       Examples.app_js (Names.NewManifest (dir := string))) = Some Examples.app_js.
Proof.
  by rewrite (AddFile_FindFileName Examples.asset_path Examples.asset_name
                Examples.asset_ext map_to_list Examples.app_js
                (Names.NewManifest (dir := string)) "app" "js").
Defined.

Lemma FindFileName_sound_witness :
  Names.FindFileName map_to_list "app" ""
    (Names.after Examples.asset_path Examples.asset_name Examples.asset_ext id id
       [Names.CallAddFile Examples.app_css; Names.CallAddDir "app"])
    = Some Examples.app_css ∧
  Examples.asset_name Examples.app_css = "app".
Proof.
  assert (Names.FindFileName map_to_list "app" ""
            (Names.after Examples.asset_path Examples.asset_name Examples.asset_ext id id
               [Names.CallAddFile Examples.app_css; Names.CallAddDir "app"])
          = Some Examples.app_css) as Hfind by (vm_compute; reflexivity).
  split; [exact Hfind|].
  exact (proj1 (proj2 (FindFileName_sound Examples.asset_path Examples.asset_name
                         Examples.asset_ext id id map_to_list _ "app" "" _
                         (λ files, reflexivity (map_to_list files)) Hfind))).
Defined.

Lemma FindFileName_any_extension_witness :
  is_Some (Names.FindFileName map_to_list "app" ""
             (Names.after Examples.asset_path Examples.asset_name Examples.asset_ext
                id id [Names.CallAddFile Examples.app_css; Names.CallAddDir "app"])).
Proof.
  apply (FindFileName_any_extension Examples.asset_path Examples.asset_name
           Examples.asset_ext id id map_to_list
           [Names.CallAddFile Examples.app_css; Names.CallAddDir "app"] "app"
           (λ files, reflexivity (map_to_list files))).
  exists Examples.app_css. split; [|reflexivity]. by left.
Defined.

End NamesFacts.
